(** * musicbot/bot.py: the versionable command tree

    A shallow embedding of [VersionableTree] (src/musicbot/bot.py): the
    error hook [on_error], the cache-filling wrappers [sync] and
    [fetch_commands], the mention resolver [find_mention_for], the digest
    [get_hash] and the conditional synchroniser [sync_if_commands_updated].

    The class extends discord.py's [app_commands.CommandTree]; what it
    inherits or imports (the remote calls behind [super().sync] and
    [super().fetch_commands], [to_dict], [json.dumps], xxh3) is collected in
    the class [Discord] below and left abstract. *)

From Stdlib Require Import ZArith Lia Bool List Ascii String DecimalString.
From Stdlib.Strings Require Import Byte.
From Stdlib Require OrderedTypeEx DecimalPos DecimalZ.
From Stdlib Require Import Sorted.
From stdpp Require Import base decidable option list gmap strings finite vector.

Open Scope Z_scope.
Open Scope string_scope.
Open Scope list_scope.

(** ** Data *)

(** [discord.abc.Snowflake]: anything with an integer [id]. *)
Record Snowflake := { snowflake_id : Z }.

(** [app_commands.AppCommand]: a record of the remote registry. *)
Record AppCommand := { app_command_id : Z; app_command_name : string }.

(** [app_commands.Command | app_commands.Group]: a declared command, with
    the attributes the tree reads. *)
#[warnings="-register-all"]
Inductive Command :=
  mkCommand { name : string; qualified_name : string; root_parent : option Command }.

(** The exceptions the library calls can raise. *)
Inductive Exn :=
  | HTTPException (status : Z)
  | MissingApplicationID
  | FileNotFoundError.

(** [app_commands.AppCommandError], as [on_error] tells them apart. *)
Inductive AppCommandError :=
  | MusicBotError (message : string)
  | OtherAppCommandError (descr : string).

(** [discord.Interaction]: whether [itx.response.is_done()]. *)
Record Interaction := { response_is_done : bool }.

(** What the tree does to the outside, in the order it does it. *)
Inductive Event :=
  | EvSync (guild : option Z)            (* super().sync(guild=...) *)
  | EvFetch (guild : option Z)           (* super().fetch_commands(guild=...) *)
  | EvWrite (data : list byte)           (* fp.seek(0); fp.write(data) *)
  | EvSendMessage (content : string)     (* itx.response.send_message *)
  | EvFollowupSend (content : string)    (* itx.followup.send *)
  | EvSuperOnError (error : AppCommandError).

#[global] Instance byte_eq_dec : EqDecision byte.
Proof.
  intros a b. destruct (Byte.eqb a b) eqn:E.
  - left. now apply Byte.byte_dec_bl.
  - right. intros Hab. apply Byte.byte_dec_lb in Hab. congruence.
Defined.

(** ** What the tree inherits and imports *)

Class Discord := {
  Payload : Type;
  (** the state of the remote registry *)
  World : Type;
  (** [command.to_dict(tree)] *)
  to_dict : Command → Payload;
  (** [json.dumps] of the list of payloads *)
  json_dumps : list Payload → string;
  (** [xxhash.xxh3_64_intdigest(data, seed)] *)
  xxh3_64 : list byte → Z → Z;
  (** [CommandTree.sync(guild=...)] *)
  super_sync : option Snowflake → World → (Exn + list AppCommand) * World;
  (** [CommandTree.fetch_commands(guild=...)] *)
  super_fetch_commands : option Snowflake → World → (Exn + list AppCommand) * World
}.

Section VersionableTree.
Context `{Discord}.

(** The attributes of [self] that the methods only read. [walk_global] and
    [walk_guild] are what [walk_commands] yields for no guild and for a
    guild id; [all_global] is [_get_all_commands(guild=None)]. A translator
    is held as the payload that [get_translated_payload] returns with it. *)
Record VersionableTree := {
  fallback_to_global : bool;
  translator : option (Command → Payload);
  walk_global : list Command;
  walk_guild : gmap Z (list Command);
  all_global : list Command
}.

(** What the methods change: [self.application_commands], the digest file
    (absent before the first run), the remote registry, and the log. *)
Record State := {
  application_commands : gmap (option Z) (list AppCommand);
  tree_hash_file : option (list byte);
  world : World;
  log : list Event
}.

(** ** A state and exception monad *)

Definition M (A : Type) : Type := State → (Exn + A) * State.

Definition ret {A} (a : A) : M A := λ s, (inr a, s).

Definition bind {A B} (m : M A) (k : A → M B) : M B :=
  λ s, match m s with
       | (inr a, s') => k a s'
       | (inl e, s') => (inl e, s')
       end.

Notation "'let*' x ':=' m 'in' k" := (bind m (λ x, k))
  (at level 10, x pattern, m at level 100, k at level 200).

Definition emit (e : Event) : M unit :=
  λ s, (inr tt, {| application_commands := application_commands s;
                   tree_hash_file := tree_hash_file s;
                   world := world s;
                   log := log s ++ [e] |}).

Definition remote (call : World → (Exn + list AppCommand) * World) : M (list AppCommand) :=
  λ s, let '(r, w) := call (world s) in
       (r, {| application_commands := application_commands s;
              tree_hash_file := tree_hash_file s;
              world := w;
              log := log s |}).

Definition cache_lookup (k : option Z) : M (option (list AppCommand)) :=
  λ s, (inr (application_commands s !! k), s).

Definition cache_store (k : option Z) (v : list AppCommand) : M unit :=
  λ s, (inr tt, {| application_commands := <[k := v]> (application_commands s);
                   tree_hash_file := tree_hash_file s;
                   world := world s;
                   log := log s |}).

(** ** [on_error] *)

Definition on_error (itx : Interaction) (error : AppCommandError) : M unit :=
  match error with
  | MusicBotError message =>
      if negb (response_is_done itx) then emit (EvSendMessage message)
      else emit (EvFollowupSend message)
  | _ => emit (EvSuperOnError error)
  end.

(** ** [sync] and [fetch_commands] *)

(** [guild.id if guild else None] *)
Definition cache_key (guild : option Snowflake) : option Z :=
  match guild with Some g => Some (snowflake_id g) | None => None end.

Definition sync (guild : option Snowflake) : M (list AppCommand) :=
  let* _ := emit (EvSync (cache_key guild)) in
  let* r := remote (super_sync guild) in
  let* _ := cache_store (cache_key guild) r in
  ret r.

Definition fetch_commands (guild : option Snowflake) : M (list AppCommand) :=
  let* _ := emit (EvFetch (cache_key guild)) in
  let* r := remote (super_fetch_commands guild) in
  let* _ := cache_store (cache_key guild) r in
  ret r.

(** ** [find_mention_for] *)

(** [CommandTree.walk_commands(guild=...)] *)
Definition walk_commands (tree : VersionableTree) (guild : option Snowflake) : list Command :=
  match guild with
  | None => walk_global tree
  | Some g => default [] (walk_guild tree !! snowflake_id g)
  end.

(** [discord.utils.get(iterable, attr=value)]: the first element whose
    attribute equals the value. *)
Definition utils_get {A} (attr : A → string) (value : string) (iterable : list A) : option A :=
  List.find (λ x, bool_decide (attr x = value)) iterable.

(** [(_command.root_parent or _command).name] *)
Definition lookup_name (c : Command) : string :=
  match root_parent c with
  | Some p => name p
  | None => name c
  end.

(** [str(n)] for an [int]. *)
Definition str (n : Z) : string := NilZero.string_of_int (Z.to_int n).

(** [f"</{qualified_name}:{id}>"] *)
Definition mention (c : Command) (r : AppCommand) : string :=
  "</" +:+ qualified_name c +:+ ":" +:+ str (app_command_id r) +:+ ">".

(** [self.application_commands[k]], with [fetch_commands] on [KeyError]. *)
Definition cached_or_fetch (guild : option Snowflake) : M (list AppCommand) :=
  let* hit := cache_lookup (cache_key guild) in
  match hit with
  | Some commands => ret commands
  | None => fetch_commands guild
  end.

Definition check_global (tree : VersionableTree) (guild : option Snowflake) : bool :=
  fallback_to_global tree || bool_decide (is_Some guild).

(** Lines 80-89: the reference is a qualified name or a command handle. *)
Definition resolve (tree : VersionableTree) (command : Command + string)
    (guild : option Snowflake) : option Command :=
  match command with
  | inr s =>
      let _command := utils_get qualified_name s (walk_commands tree guild) in
      if check_global tree guild && negb (bool_decide (is_Some _command))
      then utils_get qualified_name s (walk_commands tree None)
      else _command
  | inl c => Some c
  end.

Definition find_mention_for (tree : VersionableTree) (command : Command + string)
    (guild : option Snowflake) : M (option string) :=
  match resolve tree command guild with
  | None => ret None
  | Some _command =>
      let* app_command_found :=
        match guild with
        | Some _ =>
            let* local_commands := cached_or_fetch guild in
            ret (utils_get app_command_name (lookup_name _command) local_commands)
        | None => ret None
        end in
      let* app_command_found :=
        if check_global tree guild && negb (bool_decide (is_Some app_command_found))
        then
          let* global_commands := cached_or_fetch None in
          ret (utils_get app_command_name (lookup_name _command) global_commands)
        else ret app_command_found in
      match app_command_found with
      | None => ret None
      | Some r => ret (Some (mention _command r))
      end
  end.

(** ** [get_hash] *)

(** [sorted(commands, key=...)]: a stable sort on the key, strings compared
    as Python compares them. *)
Fixpoint insert_sorted (key : Command → string) (x : Command) (l : list Command) : list Command :=
  match l with
  | [] => [x]
  | y :: l' => if String.ltb (key y) (key x) then y :: insert_sorted key x l' else x :: l
  end.

Definition sorted (key : Command → string) (l : list Command) : list Command :=
  foldr (insert_sorted key) [] l.

Definition byte_of_Z (z : Z) : byte :=
  default x00 (Byte.of_N (Z.to_N (z mod 256))).

(** The eight bytes of a 64-bit value, most significant first. *)
Definition to_bytes_be8 (h : Z) : list byte :=
  map (λ i, byte_of_Z (Z.shiftr h (8 * i))) [7; 6; 5; 4; 3; 2; 1; 0].

(** [xxhash.xxh3_64_digest(data, seed=...)] *)
Definition xxh3_64_digest (data : list byte) (seed : Z) : list byte :=
  to_bytes_be8 (xxh3_64 data seed mod 2 ^ 64).

(** [s.encode("utf-8")], a string being held as its UTF-8 bytes. *)
Definition encode_utf8 (s : string) : list byte := list_byte_of_string s.

(** Lines 124-127: one payload per command. *)
Definition payload_of (tree : VersionableTree) (command : Command) : Payload :=
  match translator tree with
  | Some translate => translate command
  | None => to_dict command
  end.

Definition get_hash (tree : VersionableTree) : list byte :=
  let tree_commands := sorted qualified_name (all_global tree) in
  let payload := map (payload_of tree) tree_commands in
  xxh3_64_digest (encode_utf8 (json_dumps payload)) 1.

(** ** [sync_if_commands_updated] *)

(** Modelled from the spec: [resolve_path_with_links] of musicbot/utils.py,
    which is not among the sources. The digest store is "created with a
    default value if missing", the default being the empty value. *)
Definition resolve_path_with_links : M unit :=
  λ s, (inr tt, {| application_commands := application_commands s;
                   tree_hash_file := Some (default [] (tree_hash_file s));
                   world := world s;
                   log := log s |}).

(** [open("r+b")] followed by [fp.read()] *)
Definition fp_read : M (list byte) :=
  λ s, match tree_hash_file s with
       | Some data => (inr data, s)
       | None => (inl FileNotFoundError, s)
       end.

(** [fp.seek(0); fp.write(data)]: the bytes go over the start of the file,
    what lies beyond them stays. *)
Definition fp_write (data : list byte) : M unit :=
  λ s, (inr tt, {| application_commands := application_commands s;
                   tree_hash_file :=
                     Some (data ++ drop (length data) (default [] (tree_hash_file s)));
                   world := world s;
                   log := log s ++ [EvWrite data] |}).

Definition sync_if_commands_updated (tree : VersionableTree) : M unit :=
  let tree_hash := get_hash tree in
  let* _ := resolve_path_with_links in
  let* data := fp_read in
  if bool_decide (data ≠ tree_hash) then
    let* _ := sync None in
    fp_write tree_hash
  else ret tt.

(** ** Reading the log *)

(** The events a computation adds to the log. *)
Definition events_of {A} (m : M A) (s : State) : list Event :=
  drop (length (log s)) (log (m s).2).

Definition is_fetch_of (k : option Z) (e : Event) : bool :=
  match e with EvFetch k' => bool_decide (k' = k) | _ => false end.

Definition is_sync (e : Event) : bool :=
  match e with EvSync _ => true | _ => false end.

Definition is_write (e : Event) : bool :=
  match e with EvWrite _ => true | _ => false end.

Definition count (p : Event → bool) (evs : list Event) : nat :=
  length (List.filter p evs).

(** ** Vocabulary of the statements *)

(** The bytes [sync_if_commands_updated] reads from the digest file: those
    stored, or none when the file is created by the run. *)
Definition stored_digest (s : State) : list byte := default [] (tree_hash_file s).

(** The three ways a cache step can go. *)
Inductive Outcome (guild : option Snowflake) (s : State) : (Exn + list AppCommand) * State → Prop :=
  | OutcomeHit l :
      application_commands s !! cache_key guild = Some l →
      Outcome guild s (inr l, s)
  | OutcomeFetched r w :
      application_commands s !! cache_key guild = None →
      super_fetch_commands guild (world s) = (inr r, w) →
      Outcome guild s
        (inr r, {| application_commands := <[cache_key guild := r]> (application_commands s);
                   tree_hash_file := tree_hash_file s;
                   world := w;
                   log := log s ++ [EvFetch (cache_key guild)] |})
  | OutcomeRaised e w :
      application_commands s !! cache_key guild = None →
      super_fetch_commands guild (world s) = (inl e, w) →
      Outcome guild s
        (inl e, {| application_commands := application_commands s;
                   tree_hash_file := tree_hash_file s;
                   world := w;
                   log := log s ++ [EvFetch (cache_key guild)] |}).

(** One cache step of the resolver: the records of a scope, looked up or
    fetched, searched for the target name. *)
Definition search (guild : option Snowflake) (c : Command) : M (option AppCommand) :=
  bind (cached_or_fetch guild)
       (λ commands, ret (utils_get app_command_name (lookup_name c) commands)).

(** The three ways a search can go. *)
Inductive Searched (guild : option Snowflake) (c : Command) (s : State) :
    (Exn + option AppCommand) * State → Prop :=
  | SearchedHit l :
      application_commands s !! cache_key guild = Some l →
      Searched guild c s (inr (utils_get app_command_name (lookup_name c) l), s)
  | SearchedFetched r w :
      application_commands s !! cache_key guild = None →
      super_fetch_commands guild (world s) = (inr r, w) →
      Searched guild c s
        (inr (utils_get app_command_name (lookup_name c) r),
         {| application_commands := <[cache_key guild := r]> (application_commands s);
            tree_hash_file := tree_hash_file s;
            world := w;
            log := log s ++ [EvFetch (cache_key guild)] |})
  | SearchedRaised e w :
      application_commands s !! cache_key guild = None →
      super_fetch_commands guild (world s) = (inl e, w) →
      Searched guild c s
        (inl e, {| application_commands := application_commands s;
                   tree_hash_file := tree_hash_file s;
                   world := w;
                   log := log s ++ [EvFetch (cache_key guild)] |}).

(** What a resolver run may do to the state: log fetches of entries that
    were absent, and fill those entries. *)
Definition fetched_only (s s' : State) (evs : list Event) : Prop :=
  tree_hash_file s' = tree_hash_file s
  ∧ log s' = log s ++ evs
  ∧ Forall (λ e, ∃ k, e = EvFetch k ∧ application_commands s !! k = None) evs
  ∧ (∀ k, application_commands s' !! k = application_commands s !! k
          ∨ (application_commands s !! k = None ∧ EvFetch k ∈ evs))
  ∧ (evs = [] → s' = s).







End VersionableTree.

(** ** A test double

    A registry with one record, [play] with id 42, that answers while it is
    up and fails with status 503 while it is down; payloads are the
    qualified names, and the stand-in for xxh3 adds the seed to the length
    of the data. *)
Module Mock.

Definition play_record : AppCommand :=
  {| app_command_id := 42; app_command_name := "play" |}.

Definition answer (up : bool) : (Exn + list AppCommand) * bool :=
  if up then (inr [play_record], up) else (inl (HTTPException 503), up).

Definition discord : Discord :=
  {| Payload := string;
     World := bool;
     to_dict := qualified_name;
     json_dumps := String.concat ",";
     xxh3_64 := λ data seed, seed + Z.of_nat (length data);
     super_sync := λ _ up, answer up;
     super_fetch_commands := λ _ up, answer up |}.

Definition play : Command :=
  {| name := "play"; qualified_name := "play"; root_parent := None |}.

Definition queue : Command :=
  {| name := "queue"; qualified_name := "queue"; root_parent := None |}.

Definition queue_add : Command :=
  {| name := "add"; qualified_name := "queue add"; root_parent := Some queue |}.

Definition queue_record : AppCommand :=
  {| app_command_id := 7; app_command_name := "queue" |}.

(** [play] declared globally, the group [queue] in guild 1. *)
Definition tree (fallback : bool) : VersionableTree (H := discord) :=
  @Build_VersionableTree discord fallback None [play] {[ 1 := [queue; queue_add] ]} [play].

Definition state (cache : gmap (option Z) (list AppCommand))
    (file : option (list byte)) (up : bool) : State (H := discord) :=
  @Build_State discord cache file up [].

Definition guild (n : Z) : option Snowflake := Some {| snowflake_id := n |}.


End Mock.

(** * The client: [MusicBot]

    The methods of [MusicBot] that drive the tree or a player. What they
    await outside the tree (the Lavalink pool, the Discord client, a voice
    channel, a player) is a [Call], answered by the host. *)

(** [wavelink.Player], with what the client reads of it. *)
Record Player := { channel : Z; inactive_timeout : option Z }.

(** [LavalinkCreds] of musicbot/utils.py, with the fields the client reads. *)
Record LavalinkCreds := { uri : string; password : string }.

Inductive Call (Embed : Type) :=
  | PoolConnect (node_uri node_password : string) (inactive_player_timeout : Z)
  | PoolClose                                       (* wavelink.Pool.close() *)
  | ClientClose                                     (* super().close() *)
  | ChannelSend (to : Z) (content : string)         (* player.channel.send(content) *)
  | ChannelSendEmbed (to : Z) (embed : Embed)       (* player.channel.send(embed=...) *)
  | PlayerDisconnect (player : Player).             (* player.disconnect() *)
Arguments PoolConnect {Embed}.
Arguments PoolClose {Embed}.
Arguments ClientClose {Embed}.
Arguments ChannelSend {Embed}.
Arguments ChannelSendEmbed {Embed}.
Arguments PlayerDisconnect {Embed}.

Class Host `{Discord} := {
  (** what a call outside the tree can raise *)
  HostExn : Type;
  Playable : Type;
  Embed : Type;
  (** [create_track_embed] of musicbot/utils.py *)
  create_track_embed : string → Playable → Embed;
  (** [APP_COMMANDS] of musicbot/commands.py *)
  APP_COMMANDS : list Command;
  (** [CommandTree.add_command]: the tree with the command added, or the
      exception raised *)
  add_command : VersionableTree → Command → HostExn + VersionableTree;
  (** the host's answer to a call: an exception or none *)
  perform : Call Embed → World → option HostExn * World
}.

Section MusicBot.
Context `{Host}.

(** [wavelink.TrackStartEventPayload] *)
Record TrackStartEventPayload := {
  player : option Player;
  original : option Playable;
  track : Playable
}.

(** The client: its tree, the state the tree's methods work on, and the
    calls made so far. *)
Record Bot := {
  bot_tree : VersionableTree;
  bot_state : State;
  bot_calls : list (Call Embed)
}.

(** An exception of the host or one of the tree's. *)
Definition B (A : Type) : Type := Bot → ((HostExn + Exn) + A) * Bot.

Definition bret {A} (a : A) : B A := λ b, (inr a, b).

Definition bbind {A C} (m : B A) (k : A → B C) : B C :=
  λ b, match m b with
       | (inr a, b') => k a b'
       | (inl e, b') => (inl e, b')
       end.

Notation "'let+' x ':=' m 'in' k" := (bbind m (λ x, k))
  (at level 10, x pattern, m at level 100, k at level 200).

(** One awaited call. *)
Definition await (c : Call Embed) : B unit :=
  λ b, let '(r, w) := perform c (world (bot_state b)) in
       (match r with Some e => inl (inl e) | None => inr tt end,
        {| bot_tree := bot_tree b;
           bot_state := {| application_commands := application_commands (bot_state b);
                           tree_hash_file := tree_hash_file (bot_state b);
                           world := w;
                           log := log (bot_state b) |};
           bot_calls := bot_calls b ++ [c] |}).

(** [self.tree.add_command(cmd)] *)
Definition tree_add_command (cmd : Command) : B unit :=
  λ b, match add_command (bot_tree b) cmd with
       | inr t => (inr tt, {| bot_tree := t;
                              bot_state := bot_state b;
                              bot_calls := bot_calls b |})
       | inl e => (inl (inl e), b)
       end.

(** [self.tree.sync_if_commands_updated()] *)
Definition tree_sync_if_commands_updated : B unit :=
  λ b, let '(r, s) := sync_if_commands_updated (bot_tree b) (bot_state b) in
       (match r with inl e => inl (inr e) | inr u => inr u end,
        {| bot_tree := bot_tree b; bot_state := s; bot_calls := bot_calls b |}).

(** [for cmd in cmds: body(cmd)] *)
Fixpoint for_each {A} (l : list A) (body : A → B unit) : B unit :=
  match l with
  | [] => bret tt
  | x :: l' => let+ _ := body x in for_each l' body
  end.

(** [MusicBot.setup_hook], [config] being [self.config]. *)
Definition setup_hook (config : LavalinkCreds) : B unit :=
  let+ _ := await (PoolConnect (uri config) (password config) 600) in
  let+ _ := for_each APP_COMMANDS tree_add_command in
  tree_sync_if_commands_updated.

(** [MusicBot.close] *)
Definition close : B unit :=
  let+ _ := await PoolClose in
  await ClientClose.

(** [MusicBot.on_wavelink_track_start] *)
Definition on_wavelink_track_start (payload : TrackStartEventPayload) : B unit :=
  match player payload with
  | None => bret tt
  | Some p =>
      let current_embed :=
        create_track_embed "Now Playing"
          (match original payload with Some o => o | None => track payload end) in
      await (ChannelSendEmbed (channel p) current_embed)
  end.

(** [f"{player.inactive_timeout}"], the timeout being an [int] or [None]. *)
Definition str_timeout (t : option Z) : string :=
  match t with Some n => str n | None => "None" end.

(** [MusicBot.on_wavelink_inactive_player] *)
Definition on_wavelink_inactive_player (p : Player) : B unit :=
  let+ _ := await (ChannelSend (channel p)
                     ("The player has been inactive for `" +:+ str_timeout (inactive_timeout p)
                      +:+ "` seconds. Disconnecting now. Goodbye!")) in
  await (PlayerDisconnect p).

(** A new process on the same installation: the tree as it is constructed,
    an empty [application_commands] (line 39), the digest file and the
    registry as the last process left them. *)
Definition restart (fresh : VersionableTree) (b : Bot) : Bot :=
  {| bot_tree := fresh;
     bot_state := {| application_commands := ∅;
                     tree_hash_file := tree_hash_file (bot_state b);
                     world := world (bot_state b);
                     log := log (bot_state b) |};
     bot_calls := bot_calls b |}.

(** The loop of [setup_hook] over the tree alone. *)
Fixpoint add_commands (t : VersionableTree) (l : list Command) : HostExn + VersionableTree :=
  match l with
  | [] => inr t
  | c :: l' =>
      match add_command t c with
      | inr t' => add_commands t' l'
      | inl e => inl e
      end
  end.

End MusicBot.

(** ** A test double for the host

    Every call is answered while the registry is up and raises while it is
    down; [add_command] appends a global command; an embed is the title with
    the track. *)
Module BotMock.

Definition add (t : VersionableTree (H := Mock.discord)) (c : Command)
    : string + VersionableTree (H := Mock.discord) :=
  inr (@Build_VersionableTree Mock.discord (fallback_to_global t) (translator t)
         (walk_global t ++ [c]) (walk_guild t) (all_global t ++ [c])).

Definition host : @Host Mock.discord :=
  @Build_Host Mock.discord string string (string * string)
    (λ title t, (title, t))
    [Mock.play; Mock.queue]
    add
    (λ _ up, (if up then None else Some "unreachable", up)).

(** The tree as [MusicBot.__init__] constructs it. *)
Definition fresh : VersionableTree (H := Mock.discord) :=
  @Build_VersionableTree Mock.discord true None [] ∅ [].

Definition bot (file : option (list byte)) (up : bool) : Bot (H0 := host) :=
  @Build_Bot Mock.discord host fresh (Mock.state ∅ file up) [].

Definition config : LavalinkCreds := {| uri := "http://localhost:2333"; password := "pw" |}.

End BotMock.

(** * Properties *)

#[global] Arguments get_hash : simpl never.
#[global] Arguments xxh3_64_digest : simpl never.
#[global] Arguments to_bytes_be8 : simpl never.

Section Properties.
Context `{Discord}.

(** ** Running the monad *)

Lemma bind_ok {A B} (m : M A) (k : A → M B) s a s' :
  m s = (inr a, s') → bind m k s = k a s'.
Proof. unfold bind. now intros ->. Qed.

Lemma bind_raise {A B} (m : M A) (k : A → M B) s e s' :
  m s = (inl e, s') → bind m k s = (inl e, s').
Proof. unfold bind. now intros ->. Qed.

Lemma events_of_app {A} (m : M A) s evs :
  log (m s).2 = log s ++ evs → events_of m s = evs.
Proof. unfold events_of. intros ->. now rewrite drop_app_length. Qed.

Lemma state_eta s :
  {| application_commands := application_commands s;
     tree_hash_file := tree_hash_file s;
     world := world s;
     log := log s |} = s.
Proof. now destruct s. Qed.

(** ** The wrappers [sync] and [fetch_commands] *)

Lemma sync_ok guild s r w :
  super_sync guild (world s) = (inr r, w) →
  sync guild s =
    (inr r, {| application_commands := <[cache_key guild := r]> (application_commands s);
               tree_hash_file := tree_hash_file s;
               world := w;
               log := log s ++ [EvSync (cache_key guild)] |}).
Proof.
  intros Hcall. unfold sync, bind, emit, remote, cache_store, ret. simpl.
  now rewrite Hcall.
Qed.

Lemma sync_raise guild s e w :
  super_sync guild (world s) = (inl e, w) →
  sync guild s =
    (inl e, {| application_commands := application_commands s;
               tree_hash_file := tree_hash_file s;
               world := w;
               log := log s ++ [EvSync (cache_key guild)] |}).
Proof.
  intros Hcall. unfold sync, bind, emit, remote, cache_store, ret. simpl.
  now rewrite Hcall.
Qed.

Lemma fetch_commands_ok guild s r w :
  super_fetch_commands guild (world s) = (inr r, w) →
  fetch_commands guild s =
    (inr r, {| application_commands := <[cache_key guild := r]> (application_commands s);
               tree_hash_file := tree_hash_file s;
               world := w;
               log := log s ++ [EvFetch (cache_key guild)] |}).
Proof.
  intros Hcall. unfold fetch_commands, bind, emit, remote, cache_store, ret. simpl.
  now rewrite Hcall.
Qed.

Lemma fetch_commands_raise guild s e w :
  super_fetch_commands guild (world s) = (inl e, w) →
  fetch_commands guild s =
    (inl e, {| application_commands := application_commands s;
               tree_hash_file := tree_hash_file s;
               world := w;
               log := log s ++ [EvFetch (cache_key guild)] |}).
Proof.
  intros Hcall. unfold fetch_commands, bind, emit, remote, cache_store, ret. simpl.
  now rewrite Hcall.
Qed.


(** ** [on_error] *)

(** C9. A [MusicBotError] has its message sent to the user, as the initial
    response when none was sent yet and as a follow-up otherwise; any other
    error is handed to the inherited handler. Nothing else happens. *)
Theorem on_error_dispatch (itx : Interaction) (error : AppCommandError) (s : State) :
  (on_error itx error s).1 = inr tt
  ∧ events_of (on_error itx error) s =
      match error with
      | MusicBotError message =>
          if response_is_done itx then [EvFollowupSend message]
          else [EvSendMessage message]
      | OtherAppCommandError _ => [EvSuperOnError error]
      end.
Proof.
  destruct error as [message|descr]; simpl.
  - destruct (response_is_done itx); simpl; (split; [reflexivity|]);
      now apply events_of_app.
  - split; [reflexivity|]. now apply events_of_app.
Qed.

(** ** [get_hash] and [sync_if_commands_updated] *)

Lemma length_to_bytes_be8 h : length (to_bytes_be8 h) = 8%nat.
Proof. reflexivity. Qed.

Lemma length_get_hash tree : length (get_hash tree) = 8%nat.
Proof. apply length_to_bytes_be8. Qed.

Lemma stored_digest_full tree s :
  stored_digest s = get_hash tree → tree_hash_file s = Some (get_hash tree).
Proof.
  unfold stored_digest. destruct (tree_hash_file s) as [d|]; simpl.
  - now intros ->.
  - intros Hnil. pose proof (length_get_hash tree) as Hlen.
    rewrite <- Hnil in Hlen. discriminate.
Qed.

(** The run, after the file has been opened and read. *)
Lemma sync_if_commands_updated_eq tree s :
  sync_if_commands_updated tree s =
    let opened :=
      {| application_commands := application_commands s;
         tree_hash_file := Some (stored_digest s);
         world := world s;
         log := log s |} in
    if bool_decide (stored_digest s ≠ get_hash tree)
    then bind (sync None) (λ _, fp_write (get_hash tree)) opened
    else (inr tt, opened).
Proof.
  unfold sync_if_commands_updated, bind at 1 2, resolve_path_with_links, fp_read, stored_digest.
  cbn [tree_hash_file]. cbv zeta.
  now destruct (bool_decide (default [] (tree_hash_file s) ≠ get_hash tree)).
Qed.

(** C1. When the stored bytes are the digest of the declared commands,
    [sync_if_commands_updated] returns with the whole state as it found it:
    nothing is pushed, nothing is written, no event is logged. *)
Theorem sync_skipped_when_digest_matches (tree : VersionableTree) (s : State) :
  stored_digest s = get_hash tree →
  sync_if_commands_updated tree s = (inr tt, s)
  ∧ events_of (sync_if_commands_updated tree) s = []
  ∧ tree_hash_file (sync_if_commands_updated tree s).2 = tree_hash_file s.
Proof.
  intros Hsame.
  assert (sync_if_commands_updated tree s = (inr tt, s)) as Hrun.
  { rewrite sync_if_commands_updated_eq. cbv zeta.
    rewrite bool_decide_eq_false_2 by (intros Hne; now apply Hne).
    rewrite Hsame, <- (stored_digest_full _ _ Hsame). now rewrite state_eta. }
  split; [exact Hrun|]. split.
  - apply events_of_app. rewrite Hrun. cbn [snd]. now rewrite app_nil_r.
  - now rewrite Hrun.
Qed.

(** The run when the stored bytes differ and the push succeeds. *)
Lemma sync_if_commands_updated_pushed tree s r w :
  stored_digest s ≠ get_hash tree →
  super_sync None (world s) = (inr r, w) →
  sync_if_commands_updated tree s =
    (inr tt, {| application_commands := <[None := r]> (application_commands s);
                tree_hash_file :=
                  Some (get_hash tree ++ drop (length (get_hash tree)) (stored_digest s));
                world := w;
                log := (log s ++ [EvSync None]) ++ [EvWrite (get_hash tree)] |}).
Proof.
  intros Hdiff Hcall. rewrite sync_if_commands_updated_eq. cbv zeta.
  rewrite bool_decide_eq_true_2 by exact Hdiff.
  erewrite bind_ok by (apply sync_ok; exact Hcall).
  reflexivity.
Qed.

(** The run when the stored bytes differ and the push raises. *)
Lemma sync_if_commands_updated_failed tree s e w :
  stored_digest s ≠ get_hash tree →
  super_sync None (world s) = (inl e, w) →
  sync_if_commands_updated tree s =
    (inl e, {| application_commands := application_commands s;
               tree_hash_file := Some (stored_digest s);
               world := w;
               log := log s ++ [EvSync None] |}).
Proof.
  intros Hdiff Hcall. rewrite sync_if_commands_updated_eq. cbv zeta.
  rewrite bool_decide_eq_true_2 by exact Hdiff.
  erewrite bind_raise by (apply sync_raise; exact Hcall).
  reflexivity.
Qed.

(** Whatever the registry answers, a run that finds other bytes than the
    digest calls the push once. *)
Lemma sync_if_commands_updated_one_push tree s :
  stored_digest s ≠ get_hash tree →
  count is_sync (events_of (sync_if_commands_updated tree) s) = 1%nat.
Proof.
  intros Hdiff. destruct (super_sync None (world s)) as [[e|r] w] eqn:Hcall.
  - erewrite events_of_app; [|rewrite (sync_if_commands_updated_failed _ _ _ _ Hdiff Hcall);
                               reflexivity].
    reflexivity.
  - erewrite events_of_app; [|rewrite (sync_if_commands_updated_pushed _ _ _ _ Hdiff Hcall);
                               cbn [snd log]; rewrite <- app_assoc; reflexivity].
    reflexivity.
Qed.

(** C2. When the stored bytes differ from the digest, the run calls the
    global push once. If the push returns, the digest is then written once,
    over the start of the file, and these are the only two events, in that
    order. If the push raises, the exception goes to the caller, nothing is
    written, the stored bytes are those found, and a run from the resulting
    state calls the push again. *)
Theorem sync_pushes_once_then_writes (tree : VersionableTree) (s : State) :
  stored_digest s ≠ get_hash tree →
  (∀ r w, super_sync None (world s) = (inr r, w) →
     (sync_if_commands_updated tree s).1 = inr tt
     ∧ events_of (sync_if_commands_updated tree) s
         = [EvSync None; EvWrite (get_hash tree)]
     ∧ count is_sync (events_of (sync_if_commands_updated tree) s) = 1%nat
     ∧ count is_write (events_of (sync_if_commands_updated tree) s) = 1%nat
     ∧ tree_hash_file (sync_if_commands_updated tree s).2
         = Some (get_hash tree ++ drop 8 (stored_digest s)))
  ∧ (∀ e w, super_sync None (world s) = (inl e, w) →
     (sync_if_commands_updated tree s).1 = inl e
     ∧ events_of (sync_if_commands_updated tree) s = [EvSync None]
     ∧ count is_write (events_of (sync_if_commands_updated tree) s) = 0%nat
     ∧ stored_digest (sync_if_commands_updated tree s).2 = stored_digest s
     ∧ count is_sync
         (events_of (sync_if_commands_updated tree) (sync_if_commands_updated tree s).2)
         = 1%nat).
Proof.
  intros Hdiff. split.
  - intros r w Hcall.
    assert (events_of (sync_if_commands_updated tree) s
            = [EvSync None; EvWrite (get_hash tree)]) as Hevs.
    { apply events_of_app.
      rewrite (sync_if_commands_updated_pushed _ _ _ _ Hdiff Hcall).
      cbn [snd log]. now rewrite <- app_assoc. }
    rewrite Hevs, (sync_if_commands_updated_pushed _ _ _ _ Hdiff Hcall).
    cbn [fst snd tree_hash_file]. rewrite length_get_hash. now repeat split.
  - intros e w Hcall.
    assert (events_of (sync_if_commands_updated tree) s = [EvSync None]) as Hevs.
    { apply events_of_app.
      now rewrite (sync_if_commands_updated_failed _ _ _ _ Hdiff Hcall). }
    rewrite Hevs. repeat split.
    + now rewrite (sync_if_commands_updated_failed _ _ _ _ Hdiff Hcall).
    + now rewrite (sync_if_commands_updated_failed _ _ _ _ Hdiff Hcall).
    + apply sync_if_commands_updated_one_push.
      now rewrite (sync_if_commands_updated_failed _ _ _ _ Hdiff Hcall).
Qed.

(** ** The resolver's cache steps *)

Lemma cached_or_fetch_hit guild s l :
  application_commands s !! cache_key guild = Some l →
  cached_or_fetch guild s = (inr l, s).
Proof. intros Hhit. unfold cached_or_fetch, bind, cache_lookup. now rewrite Hhit. Qed.

Lemma cached_or_fetch_miss guild s :
  application_commands s !! cache_key guild = None →
  cached_or_fetch guild s = fetch_commands guild s.
Proof. intros Hmiss. unfold cached_or_fetch, bind, cache_lookup. now rewrite Hmiss. Qed.

Lemma cached_or_fetch_outcome guild s : Outcome guild s (cached_or_fetch guild s).
Proof.
  destruct (application_commands s !! cache_key guild) as [l|] eqn:Hk.
  - rewrite (cached_or_fetch_hit _ _ _ Hk). now constructor.
  - rewrite (cached_or_fetch_miss _ _ Hk).
    destruct (super_fetch_commands guild (world s)) as [[e|r] w] eqn:Hcall.
    + rewrite (fetch_commands_raise _ _ _ _ Hcall). now constructor.
    + rewrite (fetch_commands_ok _ _ _ _ Hcall). now constructor.
Qed.


(** The resolver as two searches, the second conditional on the first. *)
Lemma find_mention_for_run tree command guild s :
  find_mention_for tree command guild s =
    match resolve tree command guild with
    | None => (inr None, s)
    | Some c =>
        match (match guild with Some _ => search guild c s | None => (inr None, s) end) with
        | (inl e, s1) => (inl e, s1)
        | (inr found, s1) =>
            if check_global tree guild && negb (bool_decide (is_Some found))
            then match search None c s1 with
                 | (inl e, s2) => (inl e, s2)
                 | (inr found', s2) => (inr (mention c <$> found'), s2)
                 end
            else (inr (mention c <$> found), s1)
        end
    end.
Proof.
  unfold find_mention_for.
  destruct (resolve tree command guild) as [c|]; [|reflexivity].
  destruct guild as [g|]; cbv beta iota zeta delta [bind ret search fmap option_fmap option_map].
  - destruct (cached_or_fetch (Some g) s) as [[e|l] s1]; [reflexivity|].
    destruct (check_global tree (Some g) && _).
    + destruct (cached_or_fetch None s1) as [[e|l'] s2]; [reflexivity|].
      now destruct (utils_get _ _ l').
    + now destruct (utils_get _ _ l).
  - destruct (check_global tree None && _).
    + destruct (cached_or_fetch None s) as [[e|l'] s2]; [reflexivity|].
      now destruct (utils_get _ _ l').
    + reflexivity.
Qed.

Lemma search_outcome guild c s : Searched guild c s (search guild c s).
Proof.
  unfold search, bind.
  destruct (cached_or_fetch_outcome guild s); now econstructor.
Qed.


Lemma fetched_only_refl s : fetched_only s s [].
Proof. unfold fetched_only. rewrite app_nil_r. repeat split; auto. Qed.

Lemma Searched_fetched_only guild c s out :
  Searched guild c s out →
  fetched_only s out.2 [] ∨ 
  (application_commands s !! cache_key guild = None ∧ fetched_only s out.2 [EvFetch (cache_key guild)]).
Proof.
  intros [l Hk|r w Hk Hcall|e w Hk Hcall]; cbn [snd].
  - left. apply fetched_only_refl.
  - right. split; [exact Hk|]. unfold fetched_only. cbn [tree_hash_file log application_commands].
    repeat split; try done.
    + repeat constructor. eauto.
    + intros k. destruct (decide (k = cache_key guild)) as [->|Hne].
      * right. split; [exact Hk|]. apply list_elem_of_singleton. reflexivity.
      * left. now apply lookup_insert_ne.
  - right. split; [exact Hk|]. unfold fetched_only. cbn [tree_hash_file log application_commands].
    repeat split; try done.
    + repeat constructor. eauto.
    + intros k. now left.
Qed.

Lemma fetched_only_trans s s1 s2 evs1 evs2 :
  fetched_only s s1 evs1 → fetched_only s1 s2 evs2 →
  (∀ k, EvFetch k ∈ evs2 → EvFetch k ∉ evs1) →
  fetched_only s s2 (evs1 ++ evs2).
Proof.
  intros (Hf1 & Hl1 & Hc1 & Hm1 & He1) (Hf2 & Hl2 & Hc2 & Hm2 & He2) Hdisj.
  unfold fetched_only. repeat split.
  - congruence.
  - rewrite Hl2, Hl1. now rewrite app_assoc.
  - apply Forall_app. split; [exact Hc1|].
    eapply Forall_impl; [exact Hc2|]. intros e (k & -> & Hk).
    exists k. split; [reflexivity|].
    destruct (Hm1 k) as [Heq|[Hnone _]]; [congruence|exact Hnone].
  - intros k. destruct (Hm2 k) as [Heq2|[Hnone2 Hin2]].
    + destruct (Hm1 k) as [Heq1|[Hnone1 Hin1]].
      * left. congruence.
      * right. split; [exact Hnone1|]. apply elem_of_app. now left.
    + right. destruct (Hm1 k) as [Heq1|[Hnone1 Hin1]].
      * split; [congruence|]. apply elem_of_app. now right.
      * split; [exact Hnone1|]. apply elem_of_app. now left.
  - intros Hnil. apply app_eq_nil in Hnil as [-> ->].
    rewrite (He2 eq_refl). now apply He1.
Qed.

Lemma find_mention_for_fetched_only tree command guild s :
  ∃ evs, fetched_only s (find_mention_for tree command guild s).2 evs
         ∧ (evs = [] ∨ evs = [EvFetch (cache_key guild)] ∨ evs = [EvFetch None]
            ∨ (evs = [EvFetch (cache_key guild); EvFetch None] ∧ is_Some guild)).
Proof.
  rewrite find_mention_for_run.
  destruct (resolve tree command guild) as [c|].
  2:{ exists []. split; [apply fetched_only_refl|auto]. }
  destruct guild as [g|].
  - pose proof (search_outcome (Some g) c s) as Hout.
    apply Searched_fetched_only in Hout.
    destruct (search (Some g) c s) as [[e|found] s1]; cbn [snd] in Hout.
    { destruct Hout as [Hout|[_ Hout]]; eauto 6. }
    destruct (_ && _).
    + pose proof (search_outcome None c s1) as Hout'.
      apply Searched_fetched_only in Hout'.
      assert (∃ evs', fetched_only s1 (match search None c s1 with
           | (inl e, s2) => (inl e, s2)
           | (inr found', s2) => (inr (mention c <$> found'), s2)
           end).2 evs' ∧ (evs' = [] ∨ evs' = [EvFetch None])) as (evs' & Hstep & Hevs').
      { destruct (search None c s1) as [[e|found'] s2]; cbn [snd] in *;
          destruct Hout' as [Hout'|[_ Hout']]; eauto. }
      destruct Hout as [Hout|[_ Hout]].
      * exists evs'. split; [|destruct Hevs'; auto].
        apply (fetched_only_trans _ _ _ [] evs' Hout Hstep). intros k _. apply not_elem_of_nil.
      * exists ([EvFetch (cache_key (Some g))] ++ evs'). split.
        -- apply (fetched_only_trans _ _ _ _ evs' Hout Hstep).
           intros k Hin Hin'. destruct Hevs' as [->| ->].
           ++ now apply not_elem_of_nil in Hin.
           ++ apply list_elem_of_singleton in Hin, Hin'. cbn in *. congruence.
        -- destruct Hevs' as [->| ->]; cbn; auto 6.
    + destruct Hout as [Hout|[_ Hout]]; eauto 6.
  - destruct (_ && _).
    + pose proof (search_outcome None c s) as Hout.
      apply Searched_fetched_only in Hout.
      destruct (search None c s) as [[e|found'] s2]; cbn [snd] in *;
        destruct Hout as [Hout|[_ Hout]]; eauto 6.
    + exists []. split; [apply fetched_only_refl|auto].
Qed.


(** C8. Whatever the reference and the scope, [find_mention_for] leaves the
    digest file alone and logs nothing but fetches, each for a key that had
    no cache entry; it calls no push and writes nothing. A cache entry after
    the call is the one before it, unless it was absent and fetched; and a
    call that fetches nothing leaves the whole state, registry included, as
    it was. *)
Theorem find_mention_for_only_fetches (tree : VersionableTree) (command : Command + string)
    (guild : option Snowflake) (s : State) :
  let s' := (find_mention_for tree command guild s).2 in
  let evs := events_of (find_mention_for tree command guild) s in
  tree_hash_file s' = tree_hash_file s
  ∧ log s' = log s ++ evs
  ∧ Forall (λ e, ∃ k, e = EvFetch k ∧ application_commands s !! k = None) evs
  ∧ count is_sync evs = 0%nat
  ∧ count is_write evs = 0%nat
  ∧ (∀ k, application_commands s' !! k = application_commands s !! k
          ∨ (application_commands s !! k = None ∧ EvFetch k ∈ evs))
  ∧ (evs = [] → s' = s).
Proof.
  cbv zeta.
  destruct (find_mention_for_fetched_only tree command guild s)
    as (evs & (Hfile & Hlog & Hcold & Hframe & Hnil) & Hshape).
  rewrite (events_of_app _ _ _ Hlog).
  repeat split; try assumption.
  - destruct Hshape as [->|[->|[->|[-> _]]]]; reflexivity.
  - destruct Hshape as [->|[->|[->|[-> _]]]]; reflexivity.
Qed.

(** ** Resolution *)

(** C10. With no scope and [fallback_to_global] off, [find_mention_for]
    returns [None] for every reference and touches nothing: the scoped step
    is skipped and the global step is not taken, whatever is declared and
    whatever the global cache holds. *)
Theorem no_scope_no_fallback_is_absent (tree : VersionableTree)
    (command : Command + string) (s : State) :
  fallback_to_global tree = false →
  find_mention_for tree command None s = (inr None, s).
Proof.
  intros Hoff. rewrite find_mention_for_run.
  destruct (resolve tree command None) as [c|]; [|reflexivity].
  unfold check_global. rewrite Hoff. reflexivity.
Qed.

(** A name declared neither in the requested scope nor globally resolves to
    nothing, and the resolver returns [None] without a fetch. *)
Lemma find_mention_for_undeclared tree n guild s :
  utils_get qualified_name n (walk_commands tree guild) = None →
  utils_get qualified_name n (walk_commands tree None) = None →
  find_mention_for tree (inr n) guild s = (inr None, s).
Proof.
  intros Hscoped Hglobal. rewrite find_mention_for_run.
  unfold resolve. rewrite Hscoped, Hglobal.
  now destruct (check_global tree guild && _).
Qed.

(** C5. A resolved command is looked up under the name of its root parent
    when it has one and under its own name otherwise. A record of that name
    in the scope's cache entry, or failing that in the global entry when the
    global step is taken, gives the mention made of the command's qualified
    name and that record's id; and every mention returned is made this way
    from a record found under that name in one of the two entries. *)
Theorem mention_uses_root_parent (tree : VersionableTree) (command : Command + string)
    (guild : option Snowflake) (s : State) (c : Command) :
  resolve tree command guild = Some c →
  let target := match root_parent c with Some parent => name parent | None => name c end in
  let made_from (r : AppCommand) :=
    "</" +:+ qualified_name c +:+ ":" +:+ str (app_command_id r) +:+ ">" in
  (∀ l r, is_Some guild →
     application_commands s !! cache_key guild = Some l →
     utils_get app_command_name target l = Some r →
     find_mention_for tree command guild s = (inr (Some (made_from r)), s))
  ∧ (∀ l r, check_global tree guild = true →
     (guild = None
      ∨ ∃ l0, application_commands s !! cache_key guild = Some l0
              ∧ utils_get app_command_name target l0 = None) →
     application_commands s !! None = Some l →
     utils_get app_command_name target l = Some r →
     find_mention_for tree command guild s = (inr (Some (made_from r)), s))
  ∧ (∀ out, (find_mention_for tree command guild s).1 = inr (Some out) →
     ∃ k l r, (k = cache_key guild ∨ k = None)
              ∧ application_commands (find_mention_for tree command guild s).2 !! k = Some l
              ∧ utils_get app_command_name target l = Some r
              ∧ out = made_from r).
Proof.
  intros Hres. cbv zeta. fold (lookup_name c).
  change (λ r, "</" +:+ qualified_name c +:+ ":" +:+ str (app_command_id r) +:+ ">")
    with (mention c).
  rewrite find_mention_for_run, Hres. split; [|split].
  - intros l r [g ->] Hk Hget.
    unfold search, bind. rewrite (cached_or_fetch_hit _ _ _ Hk). unfold ret.
    rewrite Hget. rewrite andb_false_r. reflexivity.
  - intros l r Hglobal Hmiss Hk Hget. rewrite Hglobal.
    assert (search None c s = (inr (Some r), s)) as Hsearch.
    { unfold search, bind. rewrite (cached_or_fetch_hit None _ _ Hk). unfold ret.
      now rewrite Hget. }
    destruct Hmiss as [->|(l0 & Hk0 & Hget0)].
    + cbn. now rewrite Hsearch.
    + destruct guild as [g|]; [|cbn; now rewrite Hsearch].
      unfold search at 1, bind. rewrite (cached_or_fetch_hit _ _ _ Hk0). unfold ret.
      rewrite Hget0. cbn. now rewrite Hsearch.
  - intros out.
    assert (∀ s1, Searched None c s1 (search None c s1) →
              (match search None c s1 with
               | (inl e, s2) => (inl e, s2)
               | (inr found', s2) => (inr (mention c <$> found'), s2)
               end).1 = inr (Some out) →
              ∃ l r, application_commands
                       (match search None c s1 with
                        | (inl e, s2) => (inl e, s2)
                        | (inr found', s2) => (inr (mention c <$> found'), s2)
                        end).2 !! None = Some l
                     ∧ utils_get app_command_name (lookup_name c) l = Some r
                     ∧ out = mention c r) as Hglobal.
    { intros s1 Hout. destruct Hout as [l Hk|r w Hk Hcall|e w Hk Hcall]; cbn [fst snd].
      - destruct (utils_get _ _ l) as [r|] eqn:Hget; [|discriminate].
        intros [= <-]. eauto.
      - destruct (utils_get _ _ r) as [r0|] eqn:Hget; [|discriminate].
        intros [= <-]. exists r, r0. cbn [application_commands].
        change (cache_key None) with (@None Z). now rewrite lookup_insert_eq.
      - discriminate. }
    destruct guild as [g|].
    + destruct (search_outcome (Some g) c s) as [l Hk|r w Hk Hcall|e w Hk Hcall].
      * destruct (utils_get _ _ l) as [r|] eqn:Hget.
        -- rewrite andb_false_r. cbn [fst snd]. intros [= <-]. exists (cache_key (Some g)). eauto 8.
        -- destruct (check_global _ _ && _).
           ++ intros Hrun. destruct (Hglobal _ (search_outcome None c _) Hrun) as (l' & r' & ?).
              exists None. eauto 8.
           ++ discriminate.
      * destruct (utils_get _ _ r) as [r0|] eqn:Hget.
        -- rewrite andb_false_r. cbn [fst snd]. intros [= <-].
           exists (cache_key (Some g)), r, r0. cbn [application_commands].
           rewrite lookup_insert_eq. auto.
        -- destruct (check_global _ _ && _).
           ++ intros Hrun. destruct (Hglobal _ (search_outcome None c _) Hrun) as (l' & r' & ?).
              exists None. eauto 8.
           ++ discriminate.
      * discriminate.
    + destruct (check_global _ _ && _).
      * intros Hrun. destruct (Hglobal _ (search_outcome None c _) Hrun) as (l' & r' & ?).
        exists None. eauto 8.
      * discriminate.
Qed.

(** ** Lazy population of the cache *)

Lemma count_none p evs : Forall (λ e, p e = false) evs → count p evs = 0%nat.
Proof.
  unfold count. induction 1 as [|e evs He _ IH]; [reflexivity|].
  cbn. now rewrite He.
Qed.

(** A reference that resolves to nothing costs no fetch. *)
Lemma find_mention_for_unresolved tree command guild s :
  resolve tree command guild = None →
  find_mention_for tree command guild s = (inr None, s).
Proof. intros Hres. now rewrite find_mention_for_run, Hres. Qed.

(** A scope that has a cache entry is not fetched. *)
Lemma warm_scope_not_fetched tree command guild s l :
  application_commands s !! cache_key guild = Some l →
  count (is_fetch_of (cache_key guild)) (events_of (find_mention_for tree command guild) s)
    = 0%nat.
Proof.
  intros Hwarm.
  destruct (find_mention_for_fetched_only tree command guild s)
    as (evs & (_ & Hlog & Hcold & _) & _).
  rewrite (events_of_app _ _ _ Hlog). apply count_none.
  eapply Forall_impl; [exact Hcold|]. intros e (k & -> & Hk). cbn.
  apply bool_decide_eq_false_2. congruence.
Qed.

(** A resolved reference and a scope without a cache entry: the scope is
    fetched first, the global scope possibly after it. *)
Lemma cold_scope_fetched tree command g s c :
  resolve tree command (Some g) = Some c →
  application_commands s !! Some (snowflake_id g) = None →
  ∃ rest, log (find_mention_for tree command (Some g) s).2
            = log s ++ EvFetch (Some (snowflake_id g)) :: rest
          ∧ (rest = [] ∨ rest = [EvFetch None])
          ∧ ∀ r w, super_fetch_commands (Some g) (world s) = (inr r, w) →
              application_commands (find_mention_for tree command (Some g) s).2
                !! Some (snowflake_id g) = Some r.
Proof.
  intros Hres Hcold. rewrite find_mention_for_run, Hres.
  destruct (search_outcome (Some g) c s) as [l Hk|r w Hk Hcall|e w Hk Hcall];
    cbn [cache_key] in *.
  - congruence.
  - destruct (check_global _ _ && _).
    + destruct (search_outcome None c
        {| application_commands := <[Some (snowflake_id g) := r]> (application_commands s);
           tree_hash_file := tree_hash_file s;
           world := w;
           log := log s ++ [EvFetch (Some (snowflake_id g))] |})
        as [l' Hk'|r' w' Hk' Hcall'|e' w' Hk' Hcall'];
        cbn [snd log application_commands cache_key world].
      * exists []. repeat split; auto.
        intros r0 w0 Hcall0. rewrite lookup_insert_eq. congruence.
      * exists [EvFetch None]. rewrite <- app_assoc. repeat split; auto.
        intros r0 w0 Hcall0.
        rewrite lookup_insert_ne by discriminate. rewrite lookup_insert_eq. congruence.
      * exists [EvFetch None]. rewrite <- app_assoc. repeat split; auto.
        intros r0 w0 Hcall0. rewrite lookup_insert_eq. congruence.
    + cbn [snd log application_commands]. exists []. repeat split; auto.
      intros r0 w0 Hcall0. rewrite lookup_insert_eq. congruence.
  - cbn [snd log application_commands]. exists []. repeat split; auto.
    intros r0 w0 Hcall0. congruence.
Qed.

(** C6, amended. A call whose reference resolves to a declared command, for
    a scope without a cache entry, fetches that scope once; when the fetch
    returns, its records are the scope's entry afterwards, and no later call
    for that scope from the resulting state fetches it. *)
Theorem cold_scope_fetched_once (tree : VersionableTree) (command : Command + string)
    (g : Snowflake) (s : State) (c : Command) :
  resolve tree command (Some g) = Some c →
  application_commands s !! Some (snowflake_id g) = None →
  let run := find_mention_for tree command (Some g) in
  let here := is_fetch_of (Some (snowflake_id g)) in
  count here (events_of run s) = 1%nat
  ∧ ∀ r w, super_fetch_commands (Some g) (world s) = (inr r, w) →
      application_commands (run s).2 !! Some (snowflake_id g) = Some r
      ∧ ∀ command',
          count here (events_of (find_mention_for tree command' (Some g)) (run s).2) = 0%nat.
Proof.
  intros Hres Hcold. cbv zeta.
  destruct (cold_scope_fetched _ _ _ _ _ Hres Hcold) as (rest & Hlog & Hrest & Hfill).
  split.
  - rewrite (events_of_app _ _ _ Hlog). unfold count. cbn.
    rewrite bool_decide_eq_true_2 by reflexivity.
    destruct Hrest as [->| ->]; reflexivity.
  - intros r w Hcall. split; [now apply (Hfill r w)|].
    intros command'. apply (warm_scope_not_fetched _ _ (Some g) _ r). now apply (Hfill r w).
Qed.


(** ** The digest *)

Lemma ltb_lt a b : String.ltb a b = true ↔ OrderedTypeEx.String_as_OT.lt a b.
Proof.
  rewrite <- OrderedTypeEx.String_as_OT.cmp_lt.
  unfold String.ltb, OrderedTypeEx.String_as_OT.cmp.
  destruct (String.compare a b); split; congruence.
Qed.

Lemma ltb_trans a b c :
  String.ltb a b = true → String.ltb b c = true → String.ltb a c = true.
Proof. rewrite !ltb_lt. apply OrderedTypeEx.String_as_OT.lt_trans. Qed.

Lemma ltb_asym a b : String.ltb a b = true → String.ltb b a = false.
Proof.
  unfold String.ltb. rewrite (String.compare_antisym b a).
  now destruct (String.compare a b).
Qed.

Lemma ltb_total a b : a ≠ b → String.ltb b a = false → String.ltb a b = true.
Proof.
  unfold String.ltb. intros Hne. rewrite (String.compare_antisym b a).
  destruct (String.compare a b) eqn:Hcmp; cbn; try congruence.
  apply String.compare_eq_iff in Hcmp. congruence.
Qed.



Lemma sorted_cons key x l : sorted key (x :: l) = insert_sorted key x (sorted key l).
Proof. reflexivity. Qed.


(** The digest is a function of the sorted commands and their payloads. *)
Lemma get_hash_ext t1 t2 :
  sorted qualified_name (all_global t1) = sorted qualified_name (all_global t2) →
  (∀ c, c ∈ sorted qualified_name (all_global t1) → payload_of t1 c = payload_of t2 c) →
  get_hash t1 = get_hash t2.
Proof.
  intros Hsame Hpay. unfold get_hash. cbv zeta. rewrite <- Hsame.
  do 3 f_equal. apply map_ext_in. intros c Hin. apply Hpay. now apply list_elem_of_In.
Qed.

Lemma insert_sorted_Permutation key x l : insert_sorted key x l ≡ₚ x :: l.
Proof.
  induction l as [|y l IH]; cbn; [reflexivity|].
  destruct (String.ltb (key y) (key x)); [|reflexivity].
  rewrite IH. apply perm_swap.
Qed.

Lemma sorted_is_Permutation key l : sorted key l ≡ₚ l.
Proof.
  induction l as [|x l IH]; [reflexivity|].
  rewrite sorted_cons, insert_sorted_Permutation. now rewrite IH.
Qed.














End Properties.



(** * The properties on the test double *)

Module OnMock.
Import Mock.

(** C4. [play] is declared globally and the global cache entry holds its
    record. With no scope, the resolver answers from the global entry when
    [fallback_to_global] is on, and returns [None] without looking at it when
    [fallback_to_global] is off, although the docstring of [find_mention_for]
    says that the global scope is used when no guild is passed. *)
Theorem global_scope_unused_without_fallback :
  let s := state {[ None := [play_record] ]} None true in
  find_mention_for (tree true) (inr "play") None s = (inr (Some "</play:42>"), s)
  ∧ find_mention_for (tree false) (inr "play") None s = (inr None, s)
  ∧ find_mention_for (tree false) (inl play) None s = (inr None, s).
Proof. cbv zeta. repeat split; reflexivity. Qed.

(** The counterexample to C6 as stated: a name that is declared nowhere,
    asked for in guild 7 whose cache entry is absent. The call fetches
    nothing and the entry stays absent. *)
Lemma unresolved_name_fetches_nothing :
  let s := state ∅ None true in
  let run := find_mention_for (tree true) (inr "nope") (guild 7) in
  application_commands s !! Some 7 = None
  ∧ count (is_fetch_of (Some 7)) (events_of run s) = 0%nat
  ∧ application_commands (run s).2 !! Some 7 = None.
Proof. cbv zeta. repeat split; reflexivity. Qed.

Lemma sync_skipped_when_digest_matches_witness :
  let s := state ∅ (Some (get_hash (tree true))) true in
  stored_digest s = get_hash (tree true)
  ∧ sync_if_commands_updated (tree true) s = (inr tt, s).
Proof.
  cbv zeta. split; [reflexivity|].
  apply (@sync_skipped_when_digest_matches discord (tree true)
           (state ∅ (Some (get_hash (tree true))) true)).
  reflexivity.
Defined.

Lemma sync_pushes_once_then_writes_witness :
  let up := state ∅ None true in
  let down := state ∅ (Some []) false in
  stored_digest up ≠ get_hash (tree true)
  ∧ events_of (sync_if_commands_updated (tree true)) up
      = [EvSync None; EvWrite (get_hash (tree true))]
  ∧ stored_digest down ≠ get_hash (tree true)
  ∧ (sync_if_commands_updated (tree true) down).1 = inl (HTTPException 503)
  ∧ stored_digest (sync_if_commands_updated (tree true) down).2 = stored_digest down.
Proof.
  cbv zeta.
  assert (∀ file up, file = None ∨ file = Some [] →
            stored_digest (state ∅ file up) ≠ get_hash (tree true)) as Hdiff.
  { intros file up [-> | ->] Heq; apply (f_equal length) in Heq; discriminate Heq. }
  split; [apply Hdiff; auto|]. split.
  - apply (@sync_pushes_once_then_writes discord (tree true) (state ∅ None true)
             (Hdiff None true (or_introl eq_refl))) with (r := [play_record]) (w := true).
    reflexivity.
  - split; [apply Hdiff; auto|].
    destruct (@sync_pushes_once_then_writes discord (tree true) (state ∅ (Some []) false)
                (Hdiff (Some []) false (or_intror eq_refl))) as [_ Hraise].
    destruct (Hraise (HTTPException 503) false eq_refl) as (Hres & _ & _ & Hkept & _).
    split; assumption.
Defined.


Lemma mention_uses_root_parent_witness :
  let s := state {[ Some 1 := [queue_record] ]} None true in
  resolve (tree true) (inr "queue add") (guild 1) = Some queue_add
  ∧ find_mention_for (tree true) (inr "queue add") (guild 1) s
      = (inr (Some "</queue add:7>"), s).
Proof.
  cbv zeta. split; [reflexivity|].
  destruct (@mention_uses_root_parent discord (tree true) (inr "queue add") (guild 1)
              (state {[ Some 1 := [queue_record] ]} None true) queue_add eq_refl)
    as [Hscoped _].
  apply (Hscoped [queue_record] queue_record).
  - eexists. reflexivity.
  - reflexivity.
  - reflexivity.
Defined.

Lemma cold_scope_fetched_once_witness :
  let s := state ∅ None true in
  let run := find_mention_for (tree true) (inr "queue add") (guild 1) in
  resolve (tree true) (inr "queue add") (guild 1) = Some queue_add
  ∧ application_commands s !! Some 1 = None
  ∧ count (is_fetch_of (Some 1)) (events_of run s) = 1%nat
  ∧ application_commands (run s).2 !! Some 1 = Some [play_record].
Proof.
  cbv zeta. split; [reflexivity|]. split; [reflexivity|].
  destruct (@cold_scope_fetched_once discord (tree true) (inr "queue add")
              {| snowflake_id := 1 |} (state ∅ None true) queue_add eq_refl
              (lookup_empty (Some 1)))
    as [Hone Hfill].
  split; [exact Hone|].
  destruct (Hfill [play_record] true eq_refl) as [Hentry _]. exact Hentry.
Defined.


Lemma no_scope_no_fallback_is_absent_witness :
  let s := state {[ None := [play_record] ]} None true in
  fallback_to_global (tree false) = false
  ∧ utils_get qualified_name "play" (walk_commands (tree false) None) = Some play
  ∧ find_mention_for (tree false) (inr "play") None s = (inr None, s).
Proof.
  cbv zeta. split; [reflexivity|]. split; [reflexivity|].
  apply (@no_scope_no_fallback_is_absent discord (tree false) (inr "play")
           (state {[ None := [play_record] ]} None true)).
  reflexivity.
Defined.

End OnMock.

(** * Further properties of the tree *)

Section Further.
Context `{Discord}.

Lemma search_hit guild c s l :
  application_commands s !! cache_key guild = Some l →
  search guild c s = (inr (utils_get app_command_name (lookup_name c) l), s).
Proof. intros Hk. unfold search, bind. now rewrite (cached_or_fetch_hit _ _ _ Hk). Qed.

Lemma check_global_guild tree g : check_global tree (Some g) = true.
Proof.
  unfold check_global. rewrite (bool_decide_eq_true_2 _ (mk_is_Some _ _ eq_refl)).
  apply orb_true_r.
Qed.

(** X1. A [sync] or [fetch_commands] whose remote call raises hands the
    exception to its caller and leaves every cache entry and the digest
    file as they were; the call itself is the only event. *)
Theorem failed_call_keeps_cache (guild : option Snowflake) (s : State) (e : Exn) (w : World) :
  (super_sync guild (world s) = (inl e, w) →
     (sync guild s).1 = inl e
     ∧ application_commands (sync guild s).2 = application_commands s
     ∧ tree_hash_file (sync guild s).2 = tree_hash_file s
     ∧ events_of (sync guild) s = [EvSync (cache_key guild)])
  ∧ (super_fetch_commands guild (world s) = (inl e, w) →
     (fetch_commands guild s).1 = inl e
     ∧ application_commands (fetch_commands guild s).2 = application_commands s
     ∧ tree_hash_file (fetch_commands guild s).2 = tree_hash_file s
     ∧ events_of (fetch_commands guild) s = [EvFetch (cache_key guild)]).
Proof.
  split; intros Hcall.
  - repeat split; try now rewrite (sync_raise _ _ _ _ Hcall).
    apply events_of_app. now rewrite (sync_raise _ _ _ _ Hcall).
  - repeat split; try now rewrite (fetch_commands_raise _ _ _ _ Hcall).
    apply events_of_app. now rewrite (fetch_commands_raise _ _ _ _ Hcall).
Qed.

(** X2. When a guild is passed, [fallback_to_global] has no part in the
    answer: two trees that declare the same commands and differ at most in
    that flag resolve every reference alike, global step included. *)
Theorem fallback_flag_unused_with_guild (t1 t2 : VersionableTree)
    (command : Command + string) (g : Snowflake) (s : State) :
  walk_global t1 = walk_global t2 →
  walk_guild t1 = walk_guild t2 →
  find_mention_for t1 command (Some g) s = find_mention_for t2 command (Some g) s.
Proof.
  intros Hglobal Hguild. rewrite !find_mention_for_run.
  assert (resolve t1 command (Some g) = resolve t2 command (Some g)) as ->.
  { unfold resolve, walk_commands. rewrite !check_global_guild, Hglobal, Hguild.
    reflexivity. }
  now rewrite !check_global_guild.
Qed.

(** X3. A resolved reference, a guild without a cache entry and a fetch that
    raises: the exception goes to the caller after that one fetch, the
    global scope is not tried, and the cache is as it was. *)
Theorem resolver_propagates_fetch_error (tree : VersionableTree) (command : Command + string)
    (g : Snowflake) (s : State) (c : Command) (e : Exn) (w : World) :
  resolve tree command (Some g) = Some c →
  application_commands s !! Some (snowflake_id g) = None →
  super_fetch_commands (Some g) (world s) = (inl e, w) →
  (find_mention_for tree command (Some g) s).1 = inl e
  ∧ events_of (find_mention_for tree command (Some g)) s = [EvFetch (Some (snowflake_id g))]
  ∧ application_commands (find_mention_for tree command (Some g) s).2
      = application_commands s.
Proof.
  intros Hres Hcold Hcall.
  assert (find_mention_for tree command (Some g) s =
            (inl e, {| application_commands := application_commands s;
                       tree_hash_file := tree_hash_file s;
                       world := w;
                       log := log s ++ [EvFetch (Some (snowflake_id g))] |})) as Hrun.
  { rewrite find_mention_for_run, Hres. unfold search, bind.
    rewrite (cached_or_fetch_miss (Some g) _ Hcold).
    now rewrite (fetch_commands_raise _ _ _ _ Hcall). }
  rewrite Hrun. repeat split. apply events_of_app. now rewrite Hrun.
Qed.

(** A search that returns leaves the searched list in the cache, and
    keeps every entry that was there. *)
Lemma search_filled guild c s found s1 :
  search guild c s = (inr found, s1) →
  (∃ l, application_commands s1 !! cache_key guild = Some l
        ∧ found = utils_get app_command_name (lookup_name c) l)
  ∧ (∀ k l, application_commands s !! k = Some l → application_commands s1 !! k = Some l).
Proof.
  intros Heq. pose proof (search_outcome guild c s) as Hout. rewrite Heq in Hout.
  inversion Hout as [l Hk|r w Hk Hcall|]; subst.
  - split; [eauto|auto].
  - cbn [application_commands]. split.
    + exists r. now rewrite lookup_insert_eq.
    + intros k l Hl. rewrite lookup_insert_ne; [exact Hl|congruence].
Qed.

(** X4. A call that returns can be repeated: from the state it leaves, the
    same call gives the same answer and fetches nothing. *)
Theorem find_mention_for_repeatable (tree : VersionableTree) (command : Command + string)
    (guild : option Snowflake) (s : State) (answer : option string) :
  (find_mention_for tree command guild s).1 = inr answer →
  find_mention_for tree command guild (find_mention_for tree command guild s).2
    = (inr answer, (find_mention_for tree command guild s).2).
Proof.
  destruct (find_mention_for tree command guild s) as [res s'] eqn:Hrun.
  cbn [fst snd]. intros ->.
  rewrite find_mention_for_run in Hrun |- *.
  destruct (resolve tree command guild) as [c|]; [|congruence].
  destruct guild as [g|].
  - destruct (search (Some g) c s) as [[e|found] s1] eqn:Hs1; [discriminate|].
    destruct (search_filled _ _ _ _ _ Hs1) as [(l & Hl & ->) _].
    destruct (check_global tree (Some g) && _) eqn:Hchk.
    + destruct (search None c s1) as [[e|found'] s2] eqn:Hs2; [discriminate|].
      injection Hrun as <- <-.
      destruct (search_filled _ _ _ _ _ Hs2) as [(lg & Hlg & ->) Hkeep].
      rewrite (search_hit _ _ _ _ (Hkeep _ _ Hl)), Hchk.
      now rewrite (search_hit None _ _ _ Hlg).
    + injection Hrun as <- <-. now rewrite (search_hit _ _ _ _ Hl), Hchk.
  - destruct (check_global tree None && _) eqn:Hchk.
    + destruct (search None c s) as [[e|found'] s2] eqn:Hs2; [discriminate|].
      injection Hrun as <- <-.
      destruct (search_filled _ _ _ _ _ Hs2) as [(lg & Hlg & ->) _].
      now rewrite (search_hit None _ _ _ Hlg).
    + now injection Hrun as <- <-.
Qed.

Lemma utils_get_None {A} (attr : A → string) value (l : list A) :
  utils_get attr value l = None ↔ ∀ x, x ∈ l → attr x ≠ value.
Proof.
  unfold utils_get. split.
  - intros Hnone x Hin Heq. apply list_elem_of_In in Hin.
    pose proof (find_none _ _ Hnone x Hin) as Hx. cbn in Hx.
    now rewrite bool_decide_eq_true_2 in Hx.
  - intros Hall. destruct (find _ l) as [x|] eqn:Hfind; [|reflexivity].
    apply find_some in Hfind as [Hin Hx]. apply bool_decide_eq_true_1 in Hx.
    exfalso. apply (Hall x); [now apply list_elem_of_In|exact Hx].
Qed.

(** X5. With the guild's entry and the global entry both in the cache, a
    resolved command has no mention exactly when neither entry holds a
    record under its lookup name. *)
Theorem warm_lookup_absent_iff (tree : VersionableTree) (command : Command + string)
    (g : Snowflake) (s : State) (c : Command) (l lg : list AppCommand) :
  resolve tree command (Some g) = Some c →
  application_commands s !! Some (snowflake_id g) = Some l →
  application_commands s !! None = Some lg →
  (find_mention_for tree command (Some g) s).1 = inr None
  ↔ ∀ r, r ∈ l ++ lg → app_command_name r ≠ lookup_name c.
Proof.
  intros Hres Hl Hlg. rewrite find_mention_for_run, Hres.
  rewrite (search_hit (Some g) _ _ _ Hl), check_global_guild.
  destruct (utils_get app_command_name (lookup_name c) l) as [r|] eqn:Hget.
  - cbn. split; [discriminate|]. intros Hall. exfalso.
    unfold utils_get in Hget. apply find_some in Hget as [Hin Hr].
    apply bool_decide_eq_true_1 in Hr. apply (Hall r); [|exact Hr].
    apply elem_of_app. left. now apply list_elem_of_In.
  - cbn [andb negb]. rewrite bool_decide_eq_false_2 by (intros [? [=]]). cbn [negb].
    rewrite (search_hit None _ _ _ Hlg). cbn [fst].
    pose proof (proj1 (utils_get_None _ _ _) Hget) as Hnone.
    destruct (utils_get app_command_name (lookup_name c) lg) as [r|] eqn:Hget'.
    + cbn. split; [discriminate|]. intros Hall. exfalso.
      unfold utils_get in Hget'. apply find_some in Hget' as [Hin Hr].
      apply bool_decide_eq_true_1 in Hr. apply (Hall r); [|exact Hr].
      apply elem_of_app. right. now apply list_elem_of_In.
    + cbn. split; [|reflexivity]. intros _ r Hin.
      pose proof (proj1 (utils_get_None _ _ _) Hget') as Hnone'.
      apply elem_of_app in Hin as [Hin|Hin]; auto.
Qed.

(** The run when the file holds the digest. *)
Lemma sync_if_commands_updated_skipped tree s :
  tree_hash_file s = Some (get_hash tree) →
  sync_if_commands_updated tree s = (inr tt, s).
Proof.
  intros Hfile.
  assert (stored_digest s = get_hash tree) as Hsame
    by (unfold stored_digest; now rewrite Hfile).
  rewrite sync_if_commands_updated_eq. cbv zeta.
  rewrite bool_decide_eq_false_2 by (intros Hne; now apply Hne).
  now rewrite Hsame, <- Hfile, state_eta.
Qed.

(** X6. From a file of at most eight bytes, absent and empty included, that
    is not the digest, a run whose push returns leaves exactly the digest in
    the file, and the next run for the same tree changes nothing: no push,
    no write. *)
Theorem pushed_once_then_settled (tree : VersionableTree) (s : State)
    (r : list AppCommand) (w : World) :
  (length (stored_digest s) ≤ 8)%nat →
  stored_digest s ≠ get_hash tree →
  super_sync None (world s) = (inr r, w) →
  tree_hash_file (sync_if_commands_updated tree s).2 = Some (get_hash tree)
  ∧ sync_if_commands_updated tree (sync_if_commands_updated tree s).2
      = (inr tt, (sync_if_commands_updated tree s).2).
Proof.
  intros Hshort Hdiff Hcall.
  assert (tree_hash_file (sync_if_commands_updated tree s).2 = Some (get_hash tree)) as Hfile.
  { rewrite (sync_if_commands_updated_pushed _ _ _ _ Hdiff Hcall). cbn [snd tree_hash_file].
    rewrite length_get_hash, drop_ge by exact Hshort. now rewrite app_nil_r. }
  split; [exact Hfile|]. now apply sync_if_commands_updated_skipped.
Qed.

(** X7. The digest is written over the start of the file and the file is
    not cut: from a file longer than eight bytes a run whose push returns
    leaves the digest followed by the old tail, which is not the digest and
    is as long as before, so the next run pushes again. *)
Theorem long_file_never_settles (tree : VersionableTree) (s : State)
    (r : list AppCommand) (w : World) :
  (8 < length (stored_digest s))%nat →
  super_sync None (world s) = (inr r, w) →
  stored_digest (sync_if_commands_updated tree s).2
    = get_hash tree ++ drop 8 (stored_digest s)
  ∧ length (stored_digest (sync_if_commands_updated tree s).2) = length (stored_digest s)
  ∧ stored_digest (sync_if_commands_updated tree s).2 ≠ get_hash tree
  ∧ count is_sync
      (events_of (sync_if_commands_updated tree) (sync_if_commands_updated tree s).2)
      = 1%nat.
Proof.
  intros Hlong Hcall.
  assert (∀ s0, (8 < length (stored_digest s0))%nat → stored_digest s0 ≠ get_hash tree)
    as Hdiff.
  { intros s0 Hlen Heq. rewrite Heq, length_get_hash in Hlen. lia. }
  assert (stored_digest (sync_if_commands_updated tree s).2
          = get_hash tree ++ drop 8 (stored_digest s)) as Hafter.
  { rewrite (sync_if_commands_updated_pushed _ _ _ _ (Hdiff s Hlong) Hcall).
    unfold stored_digest at 1. cbn [snd tree_hash_file default].
    now rewrite length_get_hash. }
  assert (length (stored_digest (sync_if_commands_updated tree s).2)
          = length (stored_digest s)) as Hlen.
  { rewrite Hafter, length_app, length_get_hash, length_drop. lia. }
  split; [exact Hafter|]. split; [exact Hlen|].
  assert (stored_digest (sync_if_commands_updated tree s).2 ≠ get_hash tree) as Hstill.
  { apply Hdiff. rewrite Hlen. exact Hlong. }
  split; [exact Hstill|]. now apply sync_if_commands_updated_one_push.
Qed.

(** X8. What a push returns serves the resolver: after a run that pushed,
    a reference that resolves with no guild, the fallback being on, is
    answered from the pushed records without a fetch. *)
Theorem pushed_records_resolve (tree : VersionableTree) (command : Command + string)
    (s : State) (r : list AppCommand) (w : World) (c : Command) :
  stored_digest s ≠ get_hash tree →
  super_sync None (world s) = (inr r, w) →
  fallback_to_global tree = true →
  resolve tree command None = Some c →
  find_mention_for tree command None (sync_if_commands_updated tree s).2
    = (inr (mention c <$> utils_get app_command_name (lookup_name c) r),
       (sync_if_commands_updated tree s).2).
Proof.
  intros Hdiff Hcall Hon Hres.
  assert (application_commands (sync_if_commands_updated tree s).2 !! None = Some r) as Hr.
  { rewrite (sync_if_commands_updated_pushed _ _ _ _ Hdiff Hcall).
    cbn [snd application_commands]. apply lookup_insert_eq. }
  rewrite find_mention_for_run, Hres. unfold check_global. rewrite Hon. cbn.
  now rewrite (search_hit None _ _ _ Hr).
Qed.

(** X9. No run of [sync_if_commands_updated] fetches, and none touches the
    cache entry of a guild: its events are pushes and writes, and only the
    global entry can change. *)
Theorem sync_if_commands_updated_frame (tree : VersionableTree) (s : State) :
  Forall (λ e, is_sync e || is_write e = true) (events_of (sync_if_commands_updated tree) s)
  ∧ ∀ k, k ≠ None →
      application_commands (sync_if_commands_updated tree s).2 !! k
        = application_commands s !! k.
Proof.
  destruct (decide (stored_digest s = get_hash tree)) as [Hsame|Hdiff].
  - rewrite (sync_if_commands_updated_skipped _ _ (stored_digest_full _ _ Hsame)).
    split; [|reflexivity].
    rewrite (events_of_app _ _ []); [constructor|].
    rewrite (sync_if_commands_updated_skipped _ _ (stored_digest_full _ _ Hsame)).
    cbn. now rewrite app_nil_r.
  - destruct (super_sync None (world s)) as [[e|r] w] eqn:Hcall.
    + split.
      * rewrite (events_of_app _ _ [EvSync None]); [repeat constructor|].
        now rewrite (sync_if_commands_updated_failed _ _ _ _ Hdiff Hcall).
      * intros k _. now rewrite (sync_if_commands_updated_failed _ _ _ _ Hdiff Hcall).
    + split.
      * rewrite (events_of_app _ _ [EvSync None; EvWrite (get_hash tree)]);
          [repeat constructor|].
        rewrite (sync_if_commands_updated_pushed _ _ _ _ Hdiff Hcall).
        cbn [snd log]. now rewrite <- app_assoc.
      * intros k Hk. rewrite (sync_if_commands_updated_pushed _ _ _ _ Hdiff Hcall).
        cbn [snd application_commands]. now rewrite lookup_insert_ne.
Qed.

(** X10. The global scope is filled lazily too: with no guild, the fallback
    on, a resolved reference and no global cache entry, the call fetches the
    global scope once and nothing else; when the fetch returns, its records
    are the global entry and the answer comes from them. *)
Theorem cold_global_fetched_once (tree : VersionableTree) (command : Command + string)
    (s : State) (c : Command) :
  fallback_to_global tree = true →
  resolve tree command None = Some c →
  application_commands s !! None = None →
  events_of (find_mention_for tree command None) s = [EvFetch None]
  ∧ ∀ r w, super_fetch_commands None (world s) = (inr r, w) →
      (find_mention_for tree command None s).1
        = inr (mention c <$> utils_get app_command_name (lookup_name c) r)
      ∧ application_commands (find_mention_for tree command None s).2 !! None = Some r.
Proof.
  intros Hon Hres Hcold.
  assert (find_mention_for tree command None s =
            match search None c s with
            | (inl e, s2) => (inl e, s2)
            | (inr found, s2) => (inr (mention c <$> found), s2)
            end) as Hrun.
  { rewrite find_mention_for_run, Hres. unfold check_global. now rewrite Hon. }
  revert Hrun.
  destruct (search_outcome None c s) as [l Hk|r w Hk Hcall|e w Hk Hcall];
    cbn [cache_key] in Hk; intros Hrun; [congruence| |].
  - split; [apply events_of_app; now rewrite Hrun|].
    intros r0 w0 Hcall0. rewrite Hcall in Hcall0. injection Hcall0 as <- <-.
    rewrite Hrun. cbn [fst snd application_commands cache_key]. split; [reflexivity|].
    apply lookup_insert_eq.
  - split; [apply events_of_app; now rewrite Hrun|].
    intros r0 w0 Hcall0. congruence.
Qed.

(** ** The order of serialisation *)

Lemma ltb_lt_le a b c :
  String.ltb a b = true → String.ltb c b = false → String.ltb a c = true.
Proof.
  intros Hab Hcb. destruct (decide (b = c)) as [->|Hne]; [exact Hab|].
  eapply ltb_trans; [exact Hab|]. now apply ltb_total.
Qed.

Lemma insert_sorted_StronglySorted key x l :
  StronglySorted (λ a b, String.ltb (key b) (key a) = false) l →
  StronglySorted (λ a b, String.ltb (key b) (key a) = false) (insert_sorted key x l).
Proof.
  induction 1 as [|y l Hl IH Hy]; cbn.
  - repeat constructor.
  - destruct (String.ltb (key y) (key x)) eqn:Hyx.
    + constructor; [exact IH|].
      rewrite insert_sorted_Permutation. constructor; [|exact Hy].
      now apply ltb_asym.
    + constructor; [now constructor|]. constructor; [exact Hyx|].
      eapply Forall_impl; [exact Hy|]. cbn. intros z Hz.
      destruct (String.ltb (key z) (key x)) eqn:Hzx; [|reflexivity].
      rewrite (ltb_lt_le _ _ _ Hzx Hyx) in Hz. discriminate.
Qed.

Lemma insert_sorted_filter key k x l :
  List.filter (λ c, bool_decide (key c = k)) (insert_sorted key x l)
    = List.filter (λ c, bool_decide (key c = k)) (x :: l).
Proof.
  induction l as [|y l IH]; [reflexivity|].
  cbn [insert_sorted]. destruct (String.ltb (key y) (key x)) eqn:Hyx; [|reflexivity].
  cbn [List.filter] in *. rewrite IH.
  destruct (bool_decide (key x = k)) eqn:Hx, (bool_decide (key y = k)) eqn:Hy;
    try reflexivity.
  apply bool_decide_eq_true_1 in Hx, Hy. rewrite Hx, Hy in Hyx.
  pose proof (ltb_asym _ _ Hyx). congruence.
Qed.

(** X11. The digest that [get_hash] returns is that of the global commands
    serialised in the order of a stable sort on the qualified name: it is
    xxh3 with seed 1 of the JSON of the payloads of a list that holds each
    declared command once, has no command before one of a smaller name, and
    keeps commands of one name in the order they were declared. *)
Theorem get_hash_order (tree : VersionableTree) :
  ∃ l : list Command,
    get_hash tree = xxh3_64_digest (encode_utf8 (json_dumps (map (payload_of tree) l))) 1
    ∧ l ≡ₚ all_global tree
    ∧ StronglySorted (λ a b, String.ltb (qualified_name b) (qualified_name a) = false) l
    ∧ ∀ n, List.filter (λ c, bool_decide (qualified_name c = n)) l
           = List.filter (λ c, bool_decide (qualified_name c = n)) (all_global tree).
Proof.
  exists (sorted qualified_name (all_global tree)).
  split; [reflexivity|]. split; [apply sorted_is_Permutation|]. split.
  - induction (all_global tree) as [|x l IH]; [constructor|].
    rewrite sorted_cons. now apply insert_sorted_StronglySorted.
  - intros n. induction (all_global tree) as [|x l IH]; [reflexivity|].
    rewrite sorted_cons, insert_sorted_filter. cbn [List.filter]. now rewrite IH.
Qed.

(** ** The mention string *)

Lemma str_inj n m : str n = str m → n = m.
Proof.
  unfold str. intros Heq.
  assert (∀ z, NilZero.int_of_string (NilZero.string_of_int (Z.to_int z))
               = Some (Z.to_int z)) as Hparse.
  { intros z. apply NilZero.isi; destruct z; cbn; try discriminate;
      intros [= Hnil]; now apply DecimalPos.Unsigned.to_uint_nonnil in Hnil. }
  apply (f_equal NilZero.int_of_string) in Heq. rewrite !Hparse in Heq.
  injection Heq as Heq. apply (f_equal Z.of_int) in Heq.
  now rewrite !DecimalZ.of_to in Heq.
Qed.

Lemma string_length_app (s t : string) :
  String.length (s +:+ t) = (String.length s + String.length t)%nat.
Proof.
  induction s as [|a s IH]; [reflexivity|].
  change (String a s +:+ t) with (String a (s +:+ t)).
  cbn [String.length]. now rewrite IH.
Qed.

Lemma app_inj_r (s1 s2 t : string) : s1 +:+ t = s2 +:+ t → s1 = s2.
Proof.
  revert s2. induction s1 as [|a s1 IH]; intros [|b s2] Heq.
  - reflexivity.
  - exfalso. apply (f_equal String.length) in Heq.
    rewrite !string_length_app in Heq. cbn [String.length] in Heq. lia.
  - exfalso. apply (f_equal String.length) in Heq.
    rewrite !string_length_app in Heq. cbn [String.length] in Heq. lia.
  - change (String a (s1 +:+ t) = String b (s2 +:+ t)) in Heq.
    injection Heq as -> Heq. f_equal. now apply IH.
Qed.

(** X12. For one command, records with different ids give different
    mentions: the id can be read off the string. *)
Theorem mention_tells_ids_apart (c : Command) (r1 r2 : AppCommand) :
  mention c r1 = mention c r2 → app_command_id r1 = app_command_id r2.
Proof.
  unfold mention. intros Heq.
  apply (inj (String.app "</")) in Heq.
  apply (inj (String.app (qualified_name c))) in Heq.
  apply (inj (String.app ":")) in Heq.
  apply app_inj_r in Heq. now apply str_inj.
Qed.

(** X18. A name that is declared neither for the guild asked for nor
    globally has no mention, whatever the caches hold and whatever
    [fallback_to_global] says, and asking costs no fetch: the state is as it
    was. *)
Theorem undeclared_name_is_absent (tree : VersionableTree) (n : string)
    (guild : option Snowflake) (s : State) :
  utils_get qualified_name n (walk_commands tree guild) = None →
  utils_get qualified_name n (walk_commands tree None) = None →
  find_mention_for tree (inr n) guild s = (inr None, s)
  ∧ events_of (find_mention_for tree (inr n) guild) s = [].
Proof.
  intros Hscoped Hglobal.
  assert (resolve tree (inr n) guild = None) as Hres.
  { unfold resolve. rewrite Hscoped, Hglobal. now destruct (check_global tree guild && _). }
  split; [now apply find_mention_for_unresolved|].
  apply events_of_app. rewrite (find_mention_for_unresolved _ _ _ _ Hres).
  cbn. now rewrite app_nil_r.
Qed.

End Further.

(** * Properties of the client *)

Section BotProperties.
Context `{Host}.

Lemma await_run (c : Call Embed) b :
  await c b =
    (match (perform c (world (bot_state b))).1 with
     | Some e => inl (inl e)
     | None => inr tt
     end,
     {| bot_tree := bot_tree b;
        bot_state := {| application_commands := application_commands (bot_state b);
                        tree_hash_file := tree_hash_file (bot_state b);
                        world := (perform c (world (bot_state b))).2;
                        log := log (bot_state b) |};
        bot_calls := bot_calls b ++ [c] |}).
Proof. unfold await. now destruct (perform c (world (bot_state b))). Qed.

(** The loop adds the commands to the tree and touches nothing else. *)
Lemma for_each_add l b :
  bot_state (for_each l tree_add_command b).2 = bot_state b
  ∧ bot_calls (for_each l tree_add_command b).2 = bot_calls b
  ∧ match add_commands (bot_tree b) l with
    | inr t => (for_each l tree_add_command b).1 = inr tt
               ∧ bot_tree (for_each l tree_add_command b).2 = t
    | inl e => (for_each l tree_add_command b).1 = inl (inl e)
    end.
Proof.
  revert b. induction l as [|c l IH]; intros b; [now repeat split|].
  cbn [for_each add_commands]. unfold bbind, tree_add_command at 1 3 5 7 9.
  destruct (add_command (bot_tree b) c) as [e|t]; [now repeat split|].
  apply (IH {| bot_tree := t; bot_state := bot_state b; bot_calls := bot_calls b |}).
Qed.

Lemma sync_done_file_is_digest tree s s1 :
  (length (stored_digest s) ≤ 8)%nat →
  sync_if_commands_updated tree s = (inr tt, s1) →
  tree_hash_file s1 = Some (get_hash tree).
Proof.
  intros Hshort Hrun.
  assert ((sync_if_commands_updated tree s).1 = inr tt) as Hres by now rewrite Hrun.
  assert (s1 = (sync_if_commands_updated tree s).2) as -> by now rewrite Hrun.
  clear Hrun.
  destruct (decide (stored_digest s = get_hash tree)) as [Hsame|Hdiff].
  - rewrite (sync_if_commands_updated_skipped _ _ (stored_digest_full _ _ Hsame)).
    now apply stored_digest_full.
  - destruct (super_sync None (world s)) as [[e|r] w] eqn:Hcall.
    + rewrite (sync_if_commands_updated_failed _ _ _ _ Hdiff Hcall) in Hres. discriminate.
    + rewrite (sync_if_commands_updated_pushed _ _ _ _ Hdiff Hcall). cbn [snd tree_hash_file].
      rewrite length_get_hash, drop_ge by exact Hshort. now rewrite app_nil_r.
Qed.

(** The three ways [setup_hook] can go. *)
Lemma setup_hook_run config b :
  let connect := PoolConnect (uri config) (password config) 600 in
  let connected :=
    {| application_commands := application_commands (bot_state b);
       tree_hash_file := tree_hash_file (bot_state b);
       world := (perform connect (world (bot_state b))).2;
       log := log (bot_state b) |} in
  match (perform connect (world (bot_state b))).1 with
  | Some e =>
      (setup_hook config b).1 = inl (inl e)
      ∧ bot_state (setup_hook config b).2 = connected
  | None =>
      match add_commands (bot_tree b) APP_COMMANDS with
      | inl e =>
          (setup_hook config b).1 = inl (inl e)
          ∧ bot_state (setup_hook config b).2 = connected
      | inr t =>
          (setup_hook config b).1
            = match (sync_if_commands_updated t connected).1 with
              | inl e => inl (inr e)
              | inr u => inr u
              end
          ∧ bot_state (setup_hook config b).2 = (sync_if_commands_updated t connected).2
      end
  end.
Proof.
  cbv zeta. unfold setup_hook, bbind at 1 3 5 7 9 11. rewrite await_run.
  destruct (perform _ (world (bot_state b))) as [[e|] w]; cbn [fst snd]; [now split|].
  set (b1 := {| bot_tree := bot_tree b; bot_state := _; bot_calls := _ |}).
  destruct (for_each_add APP_COMMANDS b1) as (Hstate & _ & Hloop).
  change (bot_tree b) with (bot_tree b1).
  destruct (add_commands (bot_tree b1) APP_COMMANDS) as [e|t].
  - unfold bbind. destruct (for_each APP_COMMANDS tree_add_command b1) as [[e'|[]] b2];
      cbn [fst snd] in *; [|discriminate]. now injection Hloop as ->.
  - destruct Hloop as [Hok Htree]. unfold bbind.
    destruct (for_each APP_COMMANDS tree_add_command b1) as [[e'|[]] b2];
      cbn [fst snd] in *; [discriminate|].
    unfold tree_sync_if_commands_updated. rewrite Htree, Hstate.
    unfold b1. cbn [bot_state].
    now destruct (sync_if_commands_updated t _) as [[e'|[]] s2].
Qed.

(** X13. A [setup_hook] that fails with an exception from the node
    connection or from [add_command] has not reached the sync: the cache,
    the digest file and the tree's log are as they were. *)
Theorem failed_startup_syncs_nothing (config : LavalinkCreds) (b : Bot) (e : HostExn) :
  (setup_hook config b).1 = inl (inl e) →
  application_commands (bot_state (setup_hook config b).2)
    = application_commands (bot_state b)
  ∧ tree_hash_file (bot_state (setup_hook config b).2) = tree_hash_file (bot_state b)
  ∧ log (bot_state (setup_hook config b).2) = log (bot_state b).
Proof.
  intros Hfail. pose proof (setup_hook_run config b) as Hrun. cbv zeta in Hrun.
  destruct (perform _ (world (bot_state b))).1 as [e1|].
  - destruct Hrun as [_ ->]. now repeat split.
  - destruct (add_commands (bot_tree b) APP_COMMANDS) as [e1|t].
    + destruct Hrun as [_ ->]. now repeat split.
    + destruct Hrun as [Hres _]. rewrite Hres in Hfail.
      now destruct (sync_if_commands_updated t _).1.
Qed.

(** X14. A process that started, from a digest file of at most eight bytes,
    and is started again on the same installation with the same
    [APP_COMMANDS], the node answering, starts without a push: the second
    [setup_hook] returns and adds nothing to the log or the file. *)
Theorem restart_does_not_push (config : LavalinkCreds) (b0 : Bot) :
  (length (stored_digest (bot_state b0)) ≤ 8)%nat →
  (setup_hook config b0).1 = inr tt →
  (perform (PoolConnect (uri config) (password config) 600)
     (world (bot_state (setup_hook config b0).2))).1 = None →
  let b1 := (setup_hook config b0).2 in
  let again := setup_hook config (restart (bot_tree b0) b1) in
  again.1 = inr tt
  ∧ log (bot_state again.2) = log (bot_state b1)
  ∧ tree_hash_file (bot_state again.2) = tree_hash_file (bot_state b1).
Proof.
  intros Hshort Hfirst Hup. cbv zeta.
  pose proof (setup_hook_run config b0) as Hrun. cbv zeta in Hrun.
  destruct (perform _ (world (bot_state b0))).1 as [e1|];
    [destruct Hrun as [Hres _]; congruence|].
  destruct (add_commands (bot_tree b0) APP_COMMANDS) as [e1|t] eqn:Hadd;
    [destruct Hrun as [Hres _]; congruence|].
  destruct Hrun as [Hres Hstate].
  destruct (sync_if_commands_updated t _) as [[e1|[]] s1] eqn:Hsync;
    cbn [fst snd] in Hres, Hstate; [congruence|].
  apply sync_done_file_is_digest in Hsync; [|exact Hshort].
  rewrite <- Hstate in Hsync.
  pose proof (setup_hook_run config (restart (bot_tree b0) (setup_hook config b0).2)) as Hrun.
  cbv zeta in Hrun. cbn [restart bot_state bot_tree world] in Hrun.
  rewrite Hup, Hadd in Hrun.
  rewrite sync_if_commands_updated_skipped in Hrun by exact Hsync.
  destruct Hrun as [-> ->]. now repeat split.
Qed.

(** X15. [on_wavelink_inactive_player] says goodbye in the player's channel,
    naming the timeout ([None] when there is none), and only then
    disconnects the player: when the message cannot be sent the exception
    goes to the caller and the player is not disconnected. *)
Theorem goodbye_before_disconnect (p : Player) (b : Bot) :
  let goodbye :=
    ChannelSend (channel p)
      ("The player has been inactive for `"
       +:+ match inactive_timeout p with Some n => str n | None => "None" end
       +:+ "` seconds. Disconnecting now. Goodbye!") in
  match (perform goodbye (world (bot_state b))).1 with
  | Some e =>
      (on_wavelink_inactive_player p b).1 = inl (inl e)
      ∧ bot_calls (on_wavelink_inactive_player p b).2 = bot_calls b ++ [goodbye]
  | None =>
      bot_calls (on_wavelink_inactive_player p b).2
        = bot_calls b ++ [goodbye; PlayerDisconnect p]
  end.
Proof.
  cbv zeta. unfold on_wavelink_inactive_player, bbind, str_timeout. rewrite await_run.
  destruct (perform _ (world (bot_state b))).1 as [e|]; [now split|].
  rewrite await_run. cbn [snd bot_calls]. now rewrite <- app_assoc.
Qed.

(** X16. [on_wavelink_track_start] does nothing for a payload without a
    player; with a player it sends one embed, to that player's channel,
    made from the original track when the payload has one and from the
    track otherwise, and it never touches the tree or its state beyond the
    host's answer. *)
Theorem track_start_announced (payload : TrackStartEventPayload) (b : Bot) :
  match player payload with
  | None => on_wavelink_track_start payload b = (inr tt, b)
  | Some p =>
      bot_calls (on_wavelink_track_start payload b).2
        = bot_calls b
          ++ [ChannelSendEmbed (channel p)
                (create_track_embed "Now Playing"
                   (default (track payload) (original payload)))]
      ∧ bot_tree (on_wavelink_track_start payload b).2 = bot_tree b
      ∧ application_commands (bot_state (on_wavelink_track_start payload b).2)
          = application_commands (bot_state b)
      ∧ log (bot_state (on_wavelink_track_start payload b).2) = log (bot_state b)
  end.
Proof.
  unfold on_wavelink_track_start. destruct (player payload) as [p|]; [|reflexivity].
  cbv zeta. rewrite await_run. cbn [snd bot_calls bot_tree bot_state application_commands log].
  now destruct (original payload).
Qed.

(** X17. [close] closes the Lavalink pool and then the client; when closing
    the pool raises, the client is not closed. *)
Theorem pool_closed_before_client (b : Bot) :
  match (perform PoolClose (world (bot_state b))).1 with
  | Some e =>
      (close b).1 = inl (inl e) ∧ bot_calls (close b).2 = bot_calls b ++ [PoolClose]
  | None => bot_calls (close b).2 = bot_calls b ++ [PoolClose; ClientClose]
  end.
Proof.
  unfold close, bbind. rewrite await_run.
  destruct (perform _ (world (bot_state b))).1 as [e|]; [now split|].
  rewrite await_run. cbn [snd bot_calls]. now rewrite <- app_assoc.
Qed.

End BotProperties.

(** * The further properties on the test doubles *)

Module FurtherOnMock.
Import Mock BotMock.

Lemma failed_call_keeps_cache_witness :
  let s := state {[ None := [queue_record] ]} None false in
  (sync None s).1 = inl (HTTPException 503)
  ∧ application_commands (sync None s).2 = application_commands s
  ∧ (fetch_commands (guild 1) s).1 = inl (HTTPException 503)
  ∧ application_commands (fetch_commands (guild 1) s).2 = application_commands s.
Proof.
  cbv zeta.
  destruct (@failed_call_keeps_cache discord None
              (state {[ None := [queue_record] ]} None false) (HTTPException 503) false)
    as [Hsync _].
  destruct (@failed_call_keeps_cache discord (guild 1)
              (state {[ None := [queue_record] ]} None false) (HTTPException 503) false)
    as [_ Hfetch].
  destruct (Hsync eq_refl) as (? & ? & _). destruct (Hfetch eq_refl) as (? & ? & _).
  repeat split; assumption.
Defined.

Lemma fallback_flag_unused_with_guild_witness :
  let s := state {[ Some 1 := [queue_record]; None := [play_record] ]} None true in
  walk_global (tree true) = walk_global (tree false)
  ∧ walk_guild (tree true) = walk_guild (tree false)
  ∧ find_mention_for (tree true) (inr "play") (guild 1) s
      = find_mention_for (tree false) (inr "play") (guild 1) s
  ∧ find_mention_for (tree false) (inr "play") (guild 1) s = (inr (Some "</play:42>"), s).
Proof.
  cbv zeta. split; [reflexivity|]. split; [reflexivity|]. split; [|reflexivity].
  apply (@fallback_flag_unused_with_guild discord (tree true) (tree false) (inr "play")
           {| snowflake_id := 1 |}); reflexivity.
Defined.

Lemma resolver_propagates_fetch_error_witness :
  let s := state ∅ None false in
  resolve (tree true) (inr "queue add") (guild 1) = Some queue_add
  ∧ application_commands s !! Some 1 = None
  ∧ (find_mention_for (tree true) (inr "queue add") (guild 1) s).1 = inl (HTTPException 503)
  ∧ events_of (find_mention_for (tree true) (inr "queue add") (guild 1)) s
      = [EvFetch (Some 1)].
Proof.
  cbv zeta. split; [reflexivity|]. split; [reflexivity|].
  destruct (@resolver_propagates_fetch_error discord (tree true) (inr "queue add")
              {| snowflake_id := 1 |} (state ∅ None false) queue_add (HTTPException 503) false
              eq_refl (lookup_empty (Some 1)) eq_refl) as (Hres & Hevs & _).
  split; assumption.
Defined.

Lemma find_mention_for_repeatable_witness :
  let s := state ∅ None true in
  let run := find_mention_for (tree true) (inr "play") (guild 1) in
  (run s).1 = inr (Some "</play:42>")
  ∧ events_of run s = [EvFetch (Some 1)]
  ∧ run (run s).2 = (inr (Some "</play:42>"), (run s).2).
Proof.
  cbv zeta. split; [reflexivity|]. split; [reflexivity|].
  apply (@find_mention_for_repeatable discord (tree true) (inr "play") (guild 1)
           (state ∅ None true)).
  reflexivity.
Defined.

Lemma warm_lookup_absent_iff_witness :
  let s := state {[ Some 1 := [queue_record]; None := [play_record] ]} None true in
  resolve (tree true) (inr "queue add") (guild 1) = Some queue_add
  ∧ ((find_mention_for (tree true) (inr "queue add") (guild 1) s).1 = inr None
     ↔ ∀ r, r ∈ [queue_record] ++ [play_record] → app_command_name r ≠ "queue").
Proof.
  cbv zeta. split; [reflexivity|].
  apply (@warm_lookup_absent_iff discord (tree true) (inr "queue add")
           {| snowflake_id := 1 |}
           (state {[ Some 1 := [queue_record]; None := [play_record] ]} None true)
           queue_add [queue_record] [play_record]); reflexivity.
Defined.

Lemma pushed_once_then_settled_witness :
  let s := state ∅ None true in
  (length (stored_digest s) ≤ 8)%nat
  ∧ stored_digest s ≠ get_hash (tree true)
  ∧ tree_hash_file (sync_if_commands_updated (tree true) s).2 = Some (get_hash (tree true))
  ∧ sync_if_commands_updated (tree true) (sync_if_commands_updated (tree true) s).2
      = (inr tt, (sync_if_commands_updated (tree true) s).2).
Proof.
  cbv zeta.
  assert (stored_digest (state ∅ None true) ≠ get_hash (tree true)) as Hdiff.
  { intros Heq. apply (f_equal length) in Heq. discriminate Heq. }
  split; [cbn; lia|]. split; [exact Hdiff|].
  apply (@pushed_once_then_settled discord (tree true) (state ∅ None true)
           [play_record] true).
  - cbn. lia.
  - exact Hdiff.
  - reflexivity.
Defined.

Lemma long_file_never_settles_witness :
  let s := state ∅ (Some (replicate 9 x00)) true in
  (8 < length (stored_digest s))%nat
  ∧ stored_digest (sync_if_commands_updated (tree true) s).2 = get_hash (tree true) ++ [x00]
  ∧ stored_digest (sync_if_commands_updated (tree true) s).2 ≠ get_hash (tree true).
Proof.
  cbv zeta. split; [cbn; lia|].
  destruct (@long_file_never_settles discord (tree true)
              (state ∅ (Some (replicate 9 x00)) true) [play_record] true)
    as (Hafter & _ & Hstill & _).
  - cbn. lia.
  - reflexivity.
  - split; [exact Hafter|exact Hstill].
Defined.

Lemma pushed_records_resolve_witness :
  let s := state ∅ None true in
  stored_digest s ≠ get_hash (tree true)
  ∧ find_mention_for (tree true) (inr "play") None (sync_if_commands_updated (tree true) s).2
      = (inr (Some "</play:42>"), (sync_if_commands_updated (tree true) s).2).
Proof.
  cbv zeta.
  assert (stored_digest (state ∅ None true) ≠ get_hash (tree true)) as Hdiff.
  { intros Heq. apply (f_equal length) in Heq. discriminate Heq. }
  split; [exact Hdiff|].
  apply (@pushed_records_resolve discord (tree true) (inr "play") (state ∅ None true)
           [play_record] true play Hdiff); reflexivity.
Defined.

Lemma cold_global_fetched_once_witness :
  let s := state ∅ None true in
  fallback_to_global (tree true) = true
  ∧ events_of (find_mention_for (tree true) (inr "play") None) s = [EvFetch None]
  ∧ (find_mention_for (tree true) (inr "play") None s).1 = inr (Some "</play:42>").
Proof.
  cbv zeta. split; [reflexivity|].
  destruct (@cold_global_fetched_once discord (tree true) (inr "play") (state ∅ None true)
              play eq_refl eq_refl (lookup_empty None)) as [Hevs Hfill].
  split; [exact Hevs|].
  destruct (Hfill [play_record] true eq_refl) as [Hres _]. exact Hres.
Defined.

Lemma mention_tells_ids_apart_witness :
  let other := {| app_command_id := 42; app_command_name := "stop" |} in
  mention play play_record = mention play other
  ∧ app_command_id play_record = app_command_id other.
Proof.
  cbv zeta. split; [reflexivity|].
  apply (mention_tells_ids_apart play). reflexivity.
Defined.

Lemma undeclared_name_is_absent_witness :
  let s := state {[ None := [play_record] ]} None true in
  utils_get qualified_name "queue" (walk_commands (tree false) (guild 2)) = None
  ∧ utils_get qualified_name "queue" (walk_commands (tree false) (guild 1)) = Some queue
  ∧ find_mention_for (tree false) (inr "queue") (guild 2) s = (inr None, s).
Proof.
  cbv zeta. split; [reflexivity|]. split; [reflexivity|].
  apply (@undeclared_name_is_absent discord (tree false) "queue" (guild 2)); reflexivity.
Defined.

Lemma failed_startup_syncs_nothing_witness :
  (setup_hook config (bot None false)).1 = inl (inl "unreachable")
  ∧ log (bot_state (setup_hook config (bot None false)).2) = []
  ∧ tree_hash_file (bot_state (setup_hook config (bot None false)).2) = None.
Proof.
  split; [reflexivity|].
  destruct (@failed_startup_syncs_nothing discord host config (bot None false)
              "unreachable" eq_refl) as (_ & Hfile & Hlog).
  split; [exact Hlog|exact Hfile].
Defined.

Lemma restart_does_not_push_witness :
  let b1 := (setup_hook config (bot None true)).2 in
  (setup_hook config (bot None true)).1 = inr tt
  ∧ count is_sync (log (bot_state b1)) = 1%nat
  ∧ (setup_hook config (restart fresh b1)).1 = inr tt
  ∧ log (bot_state (setup_hook config (restart fresh b1)).2) = log (bot_state b1).
Proof.
  cbv zeta. split; [reflexivity|]. split; [reflexivity|].
  destruct (@restart_does_not_push discord host config (bot None true))
    as (Hres & Hlog & _).
  - cbn. lia.
  - reflexivity.
  - reflexivity.
  - split; [exact Hres|exact Hlog].
Defined.

End FurtherOnMock.
